(** * FiniteFrameFinder_Z3: axiom encoders and model verifiers

    A shallow embedding of the encoders and verifiers of
    [src/example_groups.cpp] (GroupFinder, PartialPreorderFinder) and of the
    FrameFinder revision (BitOps, FrameVariables, AxiomEncoder, FrameFinder).

    The solver itself is external.  What the programs hand to it is a list of
    [z3::expr] values; that list is what the encoders below compute, and a
    [model] is what [s.get_model()] hands back. *)

From Stdlib Require Import ZArith Lia Bool String.
From stdpp Require Import base tactics option list list_numbers.
From stdpp Require Import strings pretty.

Local Open Scope Z_scope.

(** ** The C++ [int], vectors and loops *)

Module CInt.

Definition INT_MIN : Z := - 2 ^ 31.
Definition INT_MAX : Z := 2 ^ 31 - 1.

Definition in_int (z : Z) : Prop := INT_MIN ≤ z ≤ INT_MAX.

(** Two's complement wrap-around of a mathematical integer to 32 bits. *)
Definition wrap (z : Z) : Z := (z + 2 ^ 31) mod 2 ^ 32 - 2 ^ 31.

(** [1 << n] on [int].  The shift is undefined in C++ unless [0 <= n < 31];
    the statements that depend on its value carry that bound. *)
Definition shl1 (n : Z) : Z := wrap (Z.shiftl 1 n).

(** The values taken by [i] in [for (int i = 0; i < n; ++i)]. *)
Definition range (n : Z) : list Z := seqZ 0 n.

(** [v[i]] on a [std::vector]; [None] is an access outside the vector. *)
Definition at_ {A} (v : list A) (i : Z) : option A :=
  if bool_decide (0 ≤ i) then v !! Z.to_nat i else None.

(** [t[i][j]] on a vector of vectors. *)
Definition cell {A} (t : list (list A)) (i j : Z) : option A :=
  row ← at_ t i; at_ row j.

(** [for (...; ... && ok; ...) body] with [ok] true on entry: [body x] gives
    the flag after one iteration, and a false flag leaves the loop.  The
    same shape models [if (bad) { ok = false; break; }]. *)
Fixpoint for_while (l : list Z) (body : Z → option bool) (ok : bool)
  : option bool :=
  match l with
  | [] => Some ok
  | x :: l' => if ok then ok' ← body x; for_while l' body ok' else Some ok
  end.

(** [found = false; for (...) if (test) { found = true; break; }]. *)
Fixpoint for_find (l : list Z) (test : Z → option bool) : option bool :=
  match l with
  | [] => Some false
  | x :: l' =>
      hit ← test x; if (hit : bool) then Some true else for_find l' test
  end.

(** A loop that runs to the end whatever the flag is. *)
Fixpoint for_each (l : list Z) (body : Z → bool → option bool) (ok : bool)
  : option bool :=
  match l with
  | [] => Some ok
  | x :: l' => ok' ← body x ok; for_each l' body ok'
  end.

End CInt.

(** ** The fragment of the Z3 expression language the encoders use *)

Module Z3.

(** [ctx.int_const("m_i_j")], [ctx.int_const("e")]. *)
Inductive int_name : Type :=
| m_ (i j : Z)
| e_.

(** [ctx.bool_const("R_i_j")]. *)
Inductive bool_name : Type :=
| R_ (i j : Z).

Inductive term : Type :=
| int_const (x : int_name)
| int_val (z : Z).

#[local] Set Warnings "-register-all".
Inductive expr : Type :=
| bool_const (x : bool_name)
| eq (s t : term)
| ge (s t : term)
| lt (s t : term)
| and_ (p q : expr)
| not_ (p : expr)
| implies (p q : expr)
| mk_and (ps : list expr)
| mk_or (ps : list expr).

(** A model gives every declared constant a value.  For a boolean constant
    the value is what [m.eval(x).is_true()] answers. *)
Record model : Type := Model {
  int_of : int_name → Z;
  bool_of : bool_name → bool
}.

Definition eval_term (m : model) (t : term) : Z :=
  match t with
  | int_const x => int_of m x
  | int_val z => z
  end.

Fixpoint eval (m : model) (p : expr) : bool :=
  match p with
  | bool_const x => bool_of m x
  | eq s t => bool_decide (eval_term m s = eval_term m t)
  | ge s t => bool_decide (eval_term m t ≤ eval_term m s)
  | lt s t => bool_decide (eval_term m s < eval_term m t)
  | and_ p q => eval m p && eval m q
  | not_ p => negb (eval m p)
  | implies p q => implb (eval m p) (eval m q)
  | mk_and ps => forallb (eval m) ps
  | mk_or ps => existsb (eval m) ps
  end.

(** The assertion set of a [z3::solver]: [s.add(p)] appends [p]. *)
Definition solver : Type := list expr.

Definition satisfies (m : model) (s : solver) : Prop :=
  Forall (λ p, eval m p = true) s.

(** [s.check()], with the model of [s.get_model()] attached to [sat]. *)
Inductive check_result : Type :=
| unsat
| sat (m : model)
| unknown.

(** [expr::get_numeral_int()]: throws when the numeral is no [int]. *)
Definition get_numeral_int (z : Z) : option Z :=
  if bool_decide (CInt.in_int z) then Some z else None.

End Z3.

(** ** GroupFinder ([src/example_groups.cpp]) *)

Module GroupFinder.
Import CInt Z3.

(** [mul_table[i][j]] and [identity]; the encoder and the extractor index
    [mul_table] by loop counters below [n] only. *)
Definition mul_table (i j : Z) : term := int_const (m_ i j).
Definition identity : term := int_const e_.

Section Finder.
Variable n : Z.

(** Domain constraint: all values in {0, ..., n-1}. *)
Definition domain_constraints : solver :=
  (i ← range n; j ← range n;
   [and_ (ge (mul_table i j) (int_val 0)) (lt (mul_table i j) (int_val n))])
  ++ [and_ (ge identity (int_val 0)) (lt identity (int_val n))].

Definition left_id (a : Z) : list expr :=
  (λ e, implies (eq identity (int_val e))
                (eq (mul_table e a) (int_val a))) <$> range n.

Definition right_id (a : Z) : list expr :=
  (λ e, implies (eq identity (int_val e))
                (eq (mul_table a e) (int_val a))) <$> range n.

(** AXIOM 1: identity element. *)
Definition identity_axioms : solver :=
  a ← range n; [mk_and (left_id a); mk_and (right_id a)].

Definition assoc_implication (a b c ab bc : Z) : expr :=
  implies (and_ (eq (mul_table a b) (int_val ab))
                (eq (mul_table b c) (int_val bc)))
          (eq (mul_table ab c) (mul_table a bc)).

(** AXIOM 2: associativity, one implication per (a, b, c, ab, bc). *)
Definition assoc_axioms : solver :=
  a ← range n; b ← range n; c ← range n;
  ab ← range n; bc ← range n;
  [assoc_implication a b c ab bc].

Definition has_right_inv (a : Z) : list expr :=
  (λ b, eq (mul_table a b) identity) <$> range n.

Definition has_left_inv (a : Z) : list expr :=
  (λ b, eq (mul_table b a) identity) <$> range n.

(** AXIOM 3: inverses, one disjunction per side. *)
Definition inverse_axioms : solver :=
  a ← range n; [mk_or (has_right_inv a); mk_or (has_left_inv a)].

Definition add_group_axioms (s : solver) : solver :=
  s ++ domain_constraints ++ identity_axioms ++ assoc_axioms
    ++ inverse_axioms.

(** [table[i][j] = m.eval(mul_table[i][j]).get_numeral_int()]. *)
Definition extract_table (m : model) : option (list (list Z)) :=
  mapM (λ i, mapM (λ j, get_numeral_int (eval_term m (mul_table i j)))
                  (range n))
       (range n).

Section Checks.
Variable table : list (list Z).
Variable e : Z.

(** [if (table[e][a] != a || table[a][e] != a) { ok = false; break; }] *)
Definition identity_step (a : Z) : option bool :=
  x ← cell table e a;
  if bool_decide (x ≠ a) then Some false
  else y ← cell table a e; Some (negb (bool_decide (y ≠ a))).

Definition check_identity : option bool :=
  for_while (range n) identity_step true.

Definition assoc_step (a b c : Z) : option bool :=
  ab ← cell table a b; ab_c ← cell table ab c;
  bc ← cell table b c; a_bc ← cell table a bc;
  Some (negb (bool_decide (ab_c ≠ a_bc))).

Definition check_assoc : option bool :=
  for_while (range n) (λ a,
    for_while (range n) (λ b,
      for_while (range n) (assoc_step a b) true) true) true.

(** [table[a][b] == e && table[b][a] == e] *)
Definition inverse_test (a b : Z) : option bool :=
  x ← cell table a b;
  if bool_decide (x = e) then y ← cell table b a; Some (bool_decide (y = e))
  else Some false.

Definition check_inverses : option bool :=
  for_while (range n) (λ a, for_find (range n) (inverse_test a)) true.

End Checks.

(** The three PASS/FAIL lines printed by [verify_group]. *)
Record verdicts : Type := Verdicts {
  identity_ok : bool;
  assoc_ok : bool;
  inv_ok : bool
}.

Definition verify_group (m : model) (e : Z) : option verdicts :=
  table ← extract_table m;
  i ← check_identity table e;
  a ← check_assoc table;
  v ← check_inverses table e;
  Some (Verdicts i a v).

(** [display_model]: read the identity out of the model, then verify. *)
Definition display_model (m : model) : option verdicts :=
  e ← get_numeral_int (eval_term m identity);
  verify_group m e.

(** *** Properties of a model, in the table's own terms *)

(** The value the model gives to [mul_table[a][b]], and to [identity]. *)
Definition op (m : model) (a b : Z) : Z := eval_term m (mul_table a b).
Definition ident (m : model) : Z := eval_term m identity.

(** Every entry and the identity lie in [0, n). *)
Definition closed (m : model) : Prop :=
  (∀ i j, 0 ≤ i < n → 0 ≤ j < n → 0 ≤ op m i j < n) ∧ 0 ≤ ident m < n.

(** The table [verify_group] reads out of such a model. *)
Definition table_of (m : model) : list (list Z) :=
  (λ i, op m i <$> range n) <$> range n.

Definition associative (m : model) : Prop :=
  ∀ a b c, 0 ≤ a < n → 0 ≤ b < n → 0 ≤ c < n →
    op m (op m a b) c = op m a (op m b c).

Definition two_sided_identity (m : model) : Prop :=
  ∀ a, 0 ≤ a < n → op m (ident m) a = a ∧ op m a (ident m) = a.

Definition one_sided_inverses (m : model) : Prop :=
  ∀ a, 0 ≤ a < n →
    (∃ b, 0 ≤ b < n ∧ op m a b = ident m) ∧
    (∃ b, 0 ≤ b < n ∧ op m b a = ident m).

Definition two_sided_inverses (m : model) : Prop :=
  ∀ a, 0 ≤ a < n →
    ∃ b, 0 ≤ b < n ∧ op m a b = ident m ∧ op m b a = ident m.

End Finder.

(** How the process ends once the axioms are asserted. *)
Inductive outcome : Type :=
| SAT_displayed (v : verdicts)
| UNSAT_reported
| UNKNOWN_reported.

(** [main] for a cardinality [n] ([main] itself fixes [n = 7]), over the
    solver's [check].  [None] is a lookup outside a vector or a numeral
    that is no [int]. *)
Definition run (check : solver → check_result) (n : Z) : option outcome :=
  match check (add_group_axioms n []) with
  | sat m => v ← display_model n m; Some (SAT_displayed v)
  | unsat => Some UNSAT_reported
  | unknown => Some UNKNOWN_reported
  end.

End GroupFinder.

(** ** Bitmask utilities *)

Module BitOps.
Import CInt.

Definition contains (mask k : Z) : bool :=
  negb (Z.land mask (shl1 k) =? 0).

Definition set_union (mask1 mask2 : Z) : Z := Z.lor mask1 mask2.

Definition set_intersection (mask1 mask2 : Z) : Z := Z.land mask1 mask2.

(** [((1 << n) - 1) ^ mask] *)
Definition set_complement (mask n : Z) : Z :=
  Z.lxor (wrap (shl1 n - 1)) mask.

(** [(mask1 & mask2) == mask1] *)
Definition is_subset (mask1 mask2 : Z) : bool :=
  Z.land mask1 mask2 =? mask1.

(** [while (mask) { count += mask & 1; mask >>= 1; }]: the loop need not end
    (a negative mask never becomes 0 under an arithmetic shift), so it runs
    on fuel and [None] is a loop still running when the fuel is spent. *)
Fixpoint cardinality_loop (fuel : nat) (mask count : Z) : option Z :=
  if mask =? 0 then Some count
  else match fuel with
       | O => None
       | S fuel' =>
           cardinality_loop fuel' (Z.shiftr mask 1)
                            (wrap (count + Z.land mask 1))
       end.

Definition cardinality (fuel : nat) (mask : Z) : option Z :=
  cardinality_loop fuel mask 0.

(** One round of the loop of [to_string], on the stream written so far and
    the flag [first]; [oss << i] writes [i] in decimal. *)
Definition to_string_step (mask : Z) (st : string * bool) (i : Z)
  : string * bool :=
  if contains mask i then
    let oss := if negb st.2 then st.1 +:+ "," else st.1 in
    (oss +:+ pretty i, false)
  else st.

Definition to_string (mask n : Z) : string :=
  (foldl (to_string_step mask) ("{", true) (range n)).1 +:+ "}".

(** The elements of [mask] below [n], in the order the loops meet them. *)
Definition members (mask n : Z) : list Z :=
  filter (λ k, contains mask k = true) (range n).

(** The texts of a list with a comma between neighbours. *)
Definition comma_separated (l : list string) : string :=
  match l with
  | [] => ""
  | x :: l' => x +:+ foldr (λ y rest, "," +:+ y +:+ rest) "" l'
  end.

End BitOps.

(** ** Relations on subset indices, as a model gives them *)

Module Relation.
Import Z3.

Definition rel (m : model) (i j : Z) : bool := bool_of m (R_ i j).

Section Properties.
Variable ps : Z.
Variable m : model.

Definition reflexive : Prop :=
  ∀ i, 0 ≤ i < ps → rel m i i = true.

Definition transitive : Prop :=
  ∀ i j k, 0 ≤ i < ps → 0 ≤ j < ps → 0 ≤ k < ps →
    rel m i j = true → rel m j k = true → rel m i k = true.

Definition monotone : Prop :=
  ∀ i j, 0 ≤ i < ps → 0 ≤ j < ps →
    BitOps.is_subset i j = true → rel m i j = true.

(** Some pair is related one way only. *)
Definition has_strict_pair : Prop :=
  ∃ i j, 0 ≤ i < ps ∧ 0 ≤ j < ps ∧ i ≠ j ∧
    rel m i j = true ∧ rel m j i = false.

(** The last index is not related to the first. *)
Definition separates_full_from_empty : Prop :=
  rel m (ps - 1) 0 = false.

End Properties.

End Relation.

(** ** PartialPreorderFinder ([src/example_groups.cpp]) *)

Module PartialPreorderFinder.
Import CInt Z3.

(** [R[i][j]], indexed by loop counters below [powerset_size] only. *)
Definition R (i j : Z) : expr := bool_const (R_ i j).

Section Finder.
Variable n : Z.

Definition powerset_size : Z := shl1 n.

Definition reflexivity : solver :=
  i ← range powerset_size; [R i i].

Definition transitivity : solver :=
  i ← range powerset_size; j ← range powerset_size;
  k ← range powerset_size;
  [implies (and_ (R i j) (R j k)) (R i k)].

Definition add_preorder_axioms (s : solver) : solver :=
  s ++ reflexivity ++ transitivity.

Definition add_monotonicity (s : solver) : solver :=
  s ++ (i ← range powerset_size; j ← range powerset_size;
        if BitOps.is_subset i j then [R i j] else []).

Definition has_strict_order : list expr :=
  i ← range powerset_size; j ← range powerset_size;
  if bool_decide (i ≠ j) then [and_ (R i j) (not_ (R j i))] else [].

Definition require_nontrivial (s : solver) : solver :=
  s ++ [mk_or has_strict_order].

(** What [main] asserts before [s.check()]. *)
Definition asserted : solver :=
  require_nontrivial (add_monotonicity (add_preorder_axioms [])).

(** [matrix[i][j] = m.eval(R[i][j]).is_true()] *)
Definition extract_matrix (m : model) : list (list bool) :=
  (λ i, (λ j, eval m (R i j)) <$> range powerset_size)
  <$> range powerset_size.

(** The two PASS/FAIL lines printed by [verify_preorder]. *)
Record verdicts : Type := Verdicts {
  reflexive_ok : bool;
  transitive_ok : bool
}.

Section Verify.
Variable matrix : list (list bool).

Definition check_reflexive : option bool :=
  for_while (range powerset_size) (λ i, cell matrix i i) true.

(** [if (matrix[i][j] && matrix[j][k] && !matrix[i][k]) ok = false;] *)
Definition transitive_step (i j k : Z) : option bool :=
  x ← cell matrix i j;
  if (x : bool) then
    y ← cell matrix j k;
    if (y : bool) then cell matrix i k else Some true
  else Some true.

Definition check_transitive : option bool :=
  for_while (range powerset_size) (λ i,
    for_while (range powerset_size) (λ j,
      for_while (range powerset_size) (transitive_step i j) true) true) true.

Definition verify_preorder : option verdicts :=
  r ← check_reflexive;
  t ← check_transitive;
  Some (Verdicts r t).

End Verify.

Definition display_model (m : model) : option verdicts :=
  verify_preorder (extract_matrix m).

End Finder.

Inductive outcome : Type :=
| SAT_displayed (v : verdicts)
| UNSAT_reported
| UNKNOWN_reported.

(** [main] for a universe size [n] ([main] itself fixes [n = 3]). *)
Definition run (check : solver → check_result) (n : Z) : option outcome :=
  match check (asserted n) with
  | sat m => v ← display_model n m; Some (SAT_displayed v)
  | unsat => Some UNSAT_reported
  | unknown => Some UNKNOWN_reported
  end.

End PartialPreorderFinder.

(** ** FrameVariables, AxiomEncoder, FrameFinder (the FrameFinder revision) *)

Module FrameFinder.
Import CInt Z3.

Record FrameVariables : Type := {
  universe_size : Z;
  size : Z
}.

(** The constructor: [powerset_size(1 << universe_size)]. *)
Definition mkFrameVariables (universe_size : Z) : FrameVariables :=
  {| universe_size := universe_size; size := shl1 universe_size |}.

Section Encoder.
Variable vars : FrameVariables.

(** [vars.get_R(i, j)]: the vector holds [size] rows of [size] constants. *)
Definition get_R (i j : Z) : option expr :=
  if bool_decide (0 ≤ i < size vars ∧ 0 ≤ j < size vars)
  then Some (bool_const (R_ i j)) else None.

(** Inside the loops the indices are counters below [size], and the
    constant is written directly. *)
Definition R (i j : Z) : expr := bool_const (R_ i j).

Definition encode_transitivity (s : solver) : solver :=
  s ++ (i ← range (size vars); j ← range (size vars);
        k ← range (size vars);
        [implies (and_ (R i j) (R j k)) (R i k)]).

Definition encode_monotonicity (s : solver) : solver :=
  s ++ (i ← range (size vars); j ← range (size vars);
        if BitOps.is_subset i j then [R i j] else []).

(** The indices here are computed, so the lookup is the checked one. *)
Definition encode_non_triviality (s : solver) : option solver :=
  let full_set := wrap (size vars - 1) in
  let empty_set := 0 in
  r ← get_R full_set empty_set;
  Some (s ++ [not_ r]).

(** *** The verifier *)

(** [matrix[i][j] = m.eval(vars.get_R(i, j)).is_true()] *)
Definition extract_matrix (m : model) : list (list bool) :=
  (λ i, (λ j, eval m (R i j)) <$> range (size vars)) <$> range (size vars).

(** A verifier either returns or dies in an [assert]. *)
Inductive verified : Type :=
| passed
| assertion_failed (msg : string).

Section Verify.
Variable matrix : list (list bool).

Definition check_reflexive : option bool :=
  for_while (range (size vars)) (λ i, cell matrix i i) true.

(** [if (matrix[i][j] && matrix[j][k] && !matrix[i][k]) ok = false;] *)
Definition transitive_step (i j k : Z) : option bool :=
  x ← cell matrix i j;
  if (x : bool) then
    y ← cell matrix j k;
    if (y : bool) then cell matrix i k else Some true
  else Some true.

Definition check_transitive : option bool :=
  for_while (range (size vars)) (λ i,
    for_while (range (size vars)) (λ j,
      for_while (range (size vars)) (transitive_step i j) true) true) true.

Definition verify_preorder : option verified :=
  reflexive_ok ← check_reflexive;
  if negb reflexive_ok then Some (assertion_failed "Reflexivity check failed")
  else
    transitive_ok ← check_transitive;
    if negb transitive_ok
    then Some (assertion_failed "Transitivity check failed")
    else Some passed.

(** [if (is_subset(i, j) && !matrix[i][j]) monotonicity_ok = false;] *)
Definition monotone_step (i j : Z) (ok : bool) : option bool :=
  if BitOps.is_subset i j then
    x ← cell matrix i j; Some (if negb x then false else ok)
  else Some ok.

Definition check_monotone : option bool :=
  for_each (range (size vars)) (λ i ok,
    for_each (range (size vars)) (monotone_step i) ok) true.

Definition verify_monotonicity : option verified :=
  monotonicity_ok ← check_monotone;
  if negb monotonicity_ok
  then Some (assertion_failed "Monotonicity check failed")
  else Some passed.

Definition verify_non_triviality : option verified :=
  let full_set := wrap (size vars - 1) in
  let empty_set := 0 in
  x ← cell matrix full_set empty_set;
  let non_triviality_ok := negb x in
  if negb non_triviality_ok
  then Some (assertion_failed "Non-triviality check failed")
  else Some passed.

End Verify.

(** [display_model]: the three verifiers in turn; the first failed
    [assert] ends the process. *)
Definition display_model (m : model) : option verified :=
  let matrix := extract_matrix m in
  v ← verify_preorder matrix;
  match v with
  | assertion_failed _ => Some v
  | passed =>
      v ← verify_monotonicity matrix;
      match v with
      | assertion_failed _ => Some v
      | passed => verify_non_triviality matrix
      end
  end.

(** The assertions [main] makes, in its order. *)
Definition asserted : option solver :=
  encode_non_triviality (encode_monotonicity (encode_transitivity [])).

End Encoder.

(** What the process does after the [FrameFinder] is built. *)
Inductive outcome : Type :=
| SAT_verified (v : verified)
| UNSAT_reported
| UNKNOWN_reported.

(** [main] for a universe size [n] ([main] itself fixes [n = 5]), over the
    solver's [check].  [None] is a lookup outside a vector. *)
Definition run (check : solver → check_result) (n : Z) : option outcome :=
  let vars := mkFrameVariables n in
  s ← asserted vars;
  match check s with
  | sat m => v ← display_model vars m; Some (SAT_verified v)
  | unsat => Some UNSAT_reported
  | unknown => Some UNKNOWN_reported
  end.

End FrameFinder.

(** ** A solver by enumeration

    Enough of a decision procedure to run the preorder programs on small
    universes: it tries every assignment of the [ps * ps] boolean
    constants. *)

Module Enumeration.
Import CInt Z3.

#[global] Instance bool_name_eq_dec : EqDecision bool_name.
Proof. solve_decision. Defined.

Definition names (ps : Z) : list bool_name :=
  i ← range ps; j ← range ps; [R_ i j].

Fixpoint assignments (xs : list bool_name) : list (bool_name → bool) :=
  match xs with
  | [] => [λ _, false]
  | x :: xs' =>
      rest ← assignments xs';
      [rest; λ y, if decide (y = x) then true else rest y]
  end.

Definition check (ps : Z) (s : solver) : check_result :=
  match find (λ m, forallb (eval m) s)
             (Model (λ _, 0) <$> assignments (names ps)) with
  | Some m => sat m
  | None => unsat
  end.

End Enumeration.

(** ** Concrete models on which the statements are exercised *)

Module Examples.
Import Z3.

(** The cyclic group of order 2: [a * b = (a + b) mod 2], identity 0. *)
Definition cyclic2 : model :=
  {| int_of := λ x, match x with m_ i j => (i + j) mod 2 | e_ => 0 end;
     bool_of := λ _, false |}.

(** The cyclic group of order [n]. *)
Definition cyclic (n : Z) : model :=
  {| int_of := λ x, match x with m_ i j => (i + j) mod n | e_ => 0 end;
     bool_of := λ _, false |}.

(** The relation that holds everywhere. *)
Definition total : model :=
  {| int_of := λ _, 0; bool_of := λ _, true |}.

(** A one-element table whose only entry, 1, is outside [0, 1). *)
Definition stray1 : model :=
  {| int_of := λ x, match x with m_ _ _ => 1 | e_ => 0 end;
     bool_of := λ _, false |}.

(** Subset inclusion itself as the relation: [R[i][j]] iff [i ⊆ j]. *)
Definition inclusion : model :=
  {| int_of := λ _, 0;
     bool_of := λ x, match x with R_ i j => BitOps.is_subset i j end |}.

End Examples.

(** * Facts *)

(** ** Loops and vectors *)

Section LoopFacts.
Import CInt.

Lemma elem_of_range (n x : Z) : x ∈ range n ↔ 0 ≤ x < n.
Proof. unfold range. rewrite elem_of_seqZ. lia. Qed.

Lemma Forall_range (P : Z → Prop) (n : Z) :
  Forall P (range n) ↔ ∀ x, 0 ≤ x < n → P x.
Proof.
  rewrite Forall_forall. split; intros H x Hx; apply H;
    by apply elem_of_range.
Qed.

Lemma Exists_range (P : Z → Prop) (n : Z) :
  Exists P (range n) ↔ ∃ x, 0 ≤ x < n ∧ P x.
Proof.
  rewrite Exists_exists. split; intros (x & Hx & HP); exists x; split;
    try done; by apply elem_of_range.
Qed.

Lemma forallb_range (f : Z → bool) (n : Z) :
  forallb f (range n) = true ↔ ∀ x, 0 ≤ x < n → f x = true.
Proof.
  rewrite <- Is_true_true, forallb_True, Forall_range.
  by setoid_rewrite Is_true_true.
Qed.

Lemma existsb_range (f : Z → bool) (n : Z) :
  existsb f (range n) = true ↔ ∃ x, 0 ≤ x < n ∧ f x = true.
Proof.
  rewrite <- Is_true_true, existb_True, Exists_range.
  by setoid_rewrite Is_true_true.
Qed.

Lemma at_fmap_range {A} (f : Z → A) (n i : Z) :
  0 ≤ i < n → at_ (f <$> range n) i = Some (f i).
Proof.
  intros Hi. unfold at_, range.
  rewrite bool_decide_eq_true_2 by lia.
  rewrite list_lookup_fmap, lookup_seqZ_lt by lia.
  simpl. f_equal. f_equal. lia.
Qed.

Lemma cell_fmap_range {A} (f : Z → Z → A) (n i j : Z) :
  0 ≤ i < n → 0 ≤ j < n →
  cell ((λ i, f i <$> range n) <$> range n) i j = Some (f i j).
Proof.
  intros Hi Hj. unfold cell.
  rewrite (at_fmap_range (λ i, f i <$> range n)) by done. simpl.
  by apply at_fmap_range.
Qed.

Lemma for_while_false (l : list Z) (body : Z → option bool) :
  for_while l body false = Some false.
Proof. by destruct l. Qed.

Lemma for_while_Forall (l : list Z) (body : Z → option bool) (f : Z → bool) :
  Forall (λ x, body x = Some (f x)) l →
  for_while l body true = Some (forallb f l).
Proof.
  induction 1 as [|x l Hx _ IH]; [done|]. simpl. rewrite Hx. simpl.
  destruct (f x); [done|]. apply for_while_false.
Qed.

Lemma for_while_range (n : Z) (body : Z → option bool) (f : Z → bool) :
  (∀ x, 0 ≤ x < n → body x = Some (f x)) →
  for_while (range n) body true = Some (forallb f (range n)).
Proof. intros H. apply for_while_Forall. by apply Forall_range. Qed.

Lemma for_find_range (n : Z) (test : Z → option bool) (f : Z → bool) :
  (∀ x, 0 ≤ x < n → test x = Some (f x)) →
  for_find (range n) test = Some (existsb f (range n)).
Proof.
  intros H. apply Forall_range in H.
  induction H as [|x l Hx _ IH]; [done|]. simpl. rewrite Hx. simpl.
  by destruct (f x).
Qed.

Lemma for_each_Forall (l : list Z) (body : Z → bool → option bool)
    (f : Z → bool) (ok : bool) :
  Forall (λ x, ∀ b, body x b = Some (b && f x)) l →
  for_each l body ok = Some (ok && forallb f l).
Proof.
  intros H. revert ok.
  induction H as [|x l Hx _ IH]; intros ok; simpl.
  - by rewrite andb_true_r.
  - rewrite Hx. simpl. rewrite IH. by rewrite andb_assoc.
Qed.

Lemma for_each_range (n : Z) (body : Z → bool → option bool)
    (f : Z → bool) (ok : bool) :
  (∀ x b, 0 ≤ x < n → body x b = Some (b && f x)) →
  for_each (range n) body ok = Some (ok && forallb f (range n)).
Proof.
  intros H. apply for_each_Forall, Forall_range. intros x Hx b. by apply H.
Qed.

End LoopFacts.

(** ** GroupFinder: what the asserted constraints mean in a model *)

Section GroupFacts.
Import CInt Z3 GroupFinder.

Lemma satisfies_app (m : model) (s t : solver) :
  satisfies m (s ++ t) ↔ satisfies m s ∧ satisfies m t.
Proof. apply Forall_app. Qed.

Lemma satisfies_domain (n : Z) (m : model) :
  satisfies m (domain_constraints n) ↔ closed n m.
Proof.
  unfold satisfies, domain_constraints, closed.
  rewrite Forall_app, Forall_singleton, Forall_bind, Forall_range.
  setoid_rewrite Forall_bind. setoid_rewrite Forall_range.
  setoid_rewrite Forall_singleton. simpl.
  setoid_rewrite andb_true_iff. setoid_rewrite bool_decide_eq_true.
  unfold op, ident. simpl. split.
  - intros [H He]. split; [|lia]. intros i j Hi Hj.
    specialize (H i Hi j Hj). lia.
  - intros [H He]. split; [|lia]. intros i Hi j Hj.
    specialize (H i j Hi Hj). lia.
Qed.

Lemma forallb_fmap_range {A} (f : A → bool) (g : Z → A) (n : Z) :
  forallb f (g <$> range n) = true ↔ ∀ x, 0 ≤ x < n → f (g x) = true.
Proof.
  rewrite <- Is_true_true, forallb_True, Forall_fmap, Forall_range.
  unfold compose. by setoid_rewrite Is_true_true.
Qed.

Lemma existsb_fmap_range {A} (f : A → bool) (g : Z → A) (n : Z) :
  existsb f (g <$> range n) = true ↔ ∃ x, 0 ≤ x < n ∧ f (g x) = true.
Proof.
  rewrite <- Is_true_true, existb_True, Exists_fmap, Exists_range.
  unfold compose. by setoid_rewrite Is_true_true.
Qed.

Lemma implb_decide (P Q : Prop) `{Decision P, Decision Q} :
  implb (bool_decide P) (bool_decide Q) = true ↔ (P → Q).
Proof. repeat case_bool_decide; simpl; naive_solver. Qed.

(** One candidate [e'] of the identity case split, both sides together. *)
Lemma identity_case_split (n a : Z) (m : model) :
  0 ≤ ident m < n →
  eval m (mk_and (left_id n a)) && eval m (mk_and (right_id n a)) = true
  ↔ op m (ident m) a = a ∧ op m a (ident m) = a.
Proof.
  intros He. rewrite andb_true_iff. simpl. unfold left_id, right_id.
  rewrite !forallb_fmap_range. simpl.
  setoid_rewrite implb_decide. unfold op, ident in *. simpl in *. split.
  - intros [Hl Hr]. split; [by apply Hl | by apply Hr].
  - intros [Hl Hr]. split; intros e' _ <-; done.
Qed.

Lemma satisfies_identity (n : Z) (m : model) :
  0 ≤ ident m < n →
  satisfies m (identity_axioms n) ↔ two_sided_identity n m.
Proof.
  intros He. unfold satisfies, identity_axioms, two_sided_identity.
  rewrite Forall_bind, Forall_range.
  setoid_rewrite Forall_cons. setoid_rewrite Forall_singleton.
  split; intros H a Ha.
  - apply (identity_case_split n a m He), andb_true_iff. by apply H.
  - apply andb_true_iff, (identity_case_split n a m He). by apply H.
Qed.

Lemma eval_assoc_implication (m : model) (a b c ab bc : Z) :
  eval m (assoc_implication a b c ab bc) = true
  ↔ (op m a b = ab ∧ op m b c = bc → op m ab c = op m a bc).
Proof.
  unfold assoc_implication. simpl.
  rewrite <- bool_decide_and, implb_decide. done.
Qed.

Lemma satisfies_assoc (n : Z) (m : model) :
  (∀ i j, 0 ≤ i < n → 0 ≤ j < n → 0 ≤ op m i j < n) →
  satisfies m (assoc_axioms n) ↔ associative n m.
Proof.
  intros Hc. unfold satisfies, assoc_axioms, associative.
  rewrite Forall_bind, Forall_range.
  repeat (setoid_rewrite Forall_bind; setoid_rewrite Forall_range).
  setoid_rewrite Forall_singleton.
  setoid_rewrite eval_assoc_implication. split.
  - intros H a b c Ha Hb Hc'.
    apply (H a Ha b Hb c Hc' (op m a b) (Hc a b Ha Hb)
             (op m b c) (Hc b c Hb Hc')). done.
  - intros H a Ha b Hb c Hc' ab _ bc _ [<- <-]. by apply H.
Qed.

Lemma satisfies_inverse (n : Z) (m : model) :
  satisfies m (inverse_axioms n) ↔ one_sided_inverses n m.
Proof.
  unfold satisfies, inverse_axioms, one_sided_inverses.
  rewrite Forall_bind, Forall_range.
  setoid_rewrite Forall_cons. setoid_rewrite Forall_singleton. simpl.
  unfold has_right_inv, has_left_inv.
  setoid_rewrite existsb_fmap_range. simpl.
  setoid_rewrite bool_decide_eq_true. done.
Qed.

(** In a model of the asserted axioms a left and a right inverse of the
    same element coincide: [b' = b' (a b) = (b' a) b = b]. *)
Lemma inverses_coincide (n : Z) (m : model) :
  closed n m → two_sided_identity n m → associative n m →
  one_sided_inverses n m → two_sided_inverses n m.
Proof.
  intros [Hc He] Hid Has Hinv a Ha.
  destruct (Hinv a Ha) as [(b & Hb & Hab) (b' & Hb' & Hb'a)].
  exists b. split; [done|]. split; [done|].
  assert (b' = b) as <-; [|done].
  transitivity (op m b' (op m a b)).
  - rewrite Hab. symmetry. by apply Hid.
  - rewrite <- Has by done. rewrite Hb'a. by apply Hid.
Qed.

Lemma satisfies_group_axioms (n : Z) (m : model) (s : solver) :
  satisfies m (add_group_axioms n s) ↔
  satisfies m s ∧ closed n m ∧ satisfies m (identity_axioms n) ∧
  satisfies m (assoc_axioms n) ∧ satisfies m (inverse_axioms n).
Proof.
  unfold add_group_axioms. rewrite !satisfies_app, satisfies_domain. done.
Qed.

(** *** The verifier on the table it reads out of a model *)

Lemma mapM_pointwise {A B} (f : A → option B) (g : A → B) (l : list A) :
  Forall (λ x, f x = Some (g x)) l → mapM f l = Some (g <$> l).
Proof.
  induction 1 as [|x l Hx _ IH]; [done|]. simpl. by rewrite Hx, IH.
Qed.

Lemma get_numeral_int_small (n z : Z) :
  in_int n → 0 ≤ z < n → get_numeral_int z = Some z.
Proof.
  unfold get_numeral_int, in_int, INT_MIN, INT_MAX. intros Hn Hz.
  rewrite bool_decide_eq_true_2; [done|]. lia.
Qed.

Lemma extract_table_closed (n : Z) (m : model) :
  in_int n → (∀ i j, 0 ≤ i < n → 0 ≤ j < n → 0 ≤ op m i j < n) →
  extract_table n m = Some (table_of n m).
Proof.
  intros Hn Hc. unfold extract_table, table_of.
  apply mapM_pointwise, Forall_range. intros i Hi.
  apply mapM_pointwise, Forall_range. intros j Hj.
  apply (get_numeral_int_small n); [done|]. by apply Hc.
Qed.

Lemma cell_table_of (n : Z) (m : model) (i j : Z) :
  0 ≤ i < n → 0 ≤ j < n → cell (table_of n m) i j = Some (op m i j).
Proof. apply (cell_fmap_range (op m)). Qed.

Lemma negb_decide_ne (x y : Z) :
  negb (bool_decide (x ≠ y)) = bool_decide (x = y).
Proof. repeat case_bool_decide; done. Qed.

Lemma check_identity_table_of (n : Z) (m : model) (e : Z) :
  0 ≤ e < n →
  check_identity n (table_of n m) e =
  Some (forallb (λ a, bool_decide (op m e a = a)
                      && bool_decide (op m a e = a)) (range n)).
Proof.
  intros He. apply for_while_range. intros a Ha. unfold identity_step.
  rewrite !cell_table_of by done. simpl.
  case_bool_decide as H1; simpl.
  - by rewrite bool_decide_eq_false_2.
  - by rewrite negb_decide_ne, (bool_decide_eq_true_2 _ H1).
Qed.

Lemma check_assoc_table_of (n : Z) (m : model) :
  (∀ i j, 0 ≤ i < n → 0 ≤ j < n → 0 ≤ op m i j < n) →
  check_assoc n (table_of n m) =
  Some (forallb (λ a, forallb (λ b, forallb (λ c,
          bool_decide (op m (op m a b) c = op m a (op m b c)))
        (range n)) (range n)) (range n)).
Proof.
  intros Hc. unfold check_assoc.
  apply for_while_range. intros a Ha.
  apply for_while_range. intros b Hb.
  apply for_while_range. intros c Hc'. unfold assoc_step.
  rewrite (cell_table_of n m a b) by done. simpl.
  rewrite (cell_table_of n m (op m a b) c) by auto. simpl.
  rewrite (cell_table_of n m b c) by done. simpl.
  rewrite (cell_table_of n m a (op m b c)) by auto. simpl.
  by rewrite negb_decide_ne.
Qed.

Lemma check_inverses_table_of (n : Z) (m : model) (e : Z) :
  check_inverses n (table_of n m) e =
  Some (forallb (λ a, existsb (λ b, bool_decide (op m a b = e)
                                    && bool_decide (op m b a = e))
                        (range n)) (range n)).
Proof.
  apply for_while_range. intros a Ha.
  apply for_find_range. intros b Hb. unfold inverse_test.
  rewrite !cell_table_of by done. simpl.
  by case_bool_decide.
Qed.

Lemma identity_flag (n : Z) (m : model) :
  forallb (λ a, bool_decide (op m (ident m) a = a)
                && bool_decide (op m a (ident m) = a)) (range n) = true
  ↔ two_sided_identity n m.
Proof.
  rewrite forallb_range. unfold two_sided_identity.
  setoid_rewrite andb_true_iff. by setoid_rewrite bool_decide_eq_true.
Qed.

Lemma assoc_flag (n : Z) (m : model) :
  forallb (λ a, forallb (λ b, forallb (λ c,
      bool_decide (op m (op m a b) c = op m a (op m b c)))
    (range n)) (range n)) (range n) = true
  ↔ associative n m.
Proof.
  rewrite forallb_range. setoid_rewrite forallb_range.
  setoid_rewrite forallb_range. setoid_rewrite bool_decide_eq_true.
  unfold associative. split.
  - intros H a b c Ha Hb Hc. by apply H.
  - intros H a Ha b Hb c Hc. by apply H.
Qed.

Lemma inverses_flag (n : Z) (m : model) :
  forallb (λ a, existsb (λ b, bool_decide (op m a b = ident m)
                              && bool_decide (op m b a = ident m))
                        (range n)) (range n) = true
  ↔ two_sided_inverses n m.
Proof.
  rewrite forallb_range. setoid_rewrite existsb_range.
  setoid_rewrite andb_true_iff. setoid_rewrite bool_decide_eq_true.
  done.
Qed.

(** On a closed model the verifier reads the table, makes every lookup
    inside it, and its three flags say what their names say. *)
Lemma verify_group_closed (n : Z) (m : model) :
  in_int n → closed n m →
  ∃ i a v,
    extract_table n m = Some (table_of n m) ∧
    check_identity n (table_of n m) (ident m) = Some i ∧
    check_assoc n (table_of n m) = Some a ∧
    check_inverses n (table_of n m) (ident m) = Some v ∧
    verify_group n m (ident m) = Some (Verdicts i a v) ∧
    (i = true ↔ two_sided_identity n m) ∧
    (a = true ↔ associative n m) ∧
    (v = true ↔ two_sided_inverses n m).
Proof.
  intros Hn [Hc He]. eexists _, _, _.
  split; [by apply extract_table_closed|].
  split; [by apply check_identity_table_of|].
  split; [by apply check_assoc_table_of|].
  split; [by apply check_inverses_table_of|].
  split.
  - unfold verify_group. rewrite extract_table_closed by done. simpl.
    rewrite check_identity_table_of by done. simpl.
    rewrite check_assoc_table_of by done. simpl.
    by rewrite check_inverses_table_of.
  - split; [apply identity_flag|]. split; [apply assoc_flag|].
    apply inverses_flag.
Qed.

Lemma satisfies_forallb (m : model) (s : solver) :
  satisfies m s ↔ forallb (eval m) s = true.
Proof.
  unfold satisfies. rewrite <- Is_true_true, forallb_True.
  by setoid_rewrite Is_true_true.
Qed.

(** *** Main results on the group finder *)

(** C1.  On a table with entries in [0, n) the asserted case split, one
    implication per (a, b, c, ab, bc), holds in the model exactly when
    [table[table[a][b]][c] == table[a][table[b][c]]] for every triple, and
    the verifier's associativity flag on the extracted table is true exactly
    when the case split holds. *)
Theorem assoc_case_split_decides_associativity (n : Z) (m : model) :
  1 ≤ n → in_int n →
  (∀ i j, 0 ≤ i < n → 0 ≤ j < n → 0 ≤ op m i j < n) →
  (satisfies m (assoc_axioms n) ↔ associative n m) ∧
  ∃ table ok,
    extract_table n m = Some table ∧
    check_assoc n table = Some ok ∧
    (ok = true ↔ satisfies m (assoc_axioms n)).
Proof.
  intros _ Hn Hc. split; [by apply satisfies_assoc|].
  eexists _, _. split; [by apply extract_table_closed|].
  split; [by apply check_assoc_table_of|].
  by rewrite assoc_flag, satisfies_assoc.
Qed.

Lemma assoc_case_split_decides_associativity_cyclic2 :
  (satisfies Examples.cyclic2 (assoc_axioms 2)
   ↔ associative 2 Examples.cyclic2) ∧
  ∃ table ok,
    extract_table 2 Examples.cyclic2 = Some table ∧
    check_assoc 2 table = Some ok ∧
    (ok = true ↔ satisfies Examples.cyclic2 (assoc_axioms 2)).
Proof.
  apply (assoc_case_split_decides_associativity 2 Examples.cyclic2).
  - lia.
  - unfold in_int, INT_MIN, INT_MAX. lia.
  - intros i j Hi Hj. apply (Z.mod_pos_bound (i + j) 2). lia.
Defined.

(** C2.  In every model of the asserted axioms each element has one [b]
    that is its inverse on both sides, so the verifier's joint inverse check
    passes on the extracted table. *)
Theorem one_sided_existentials_give_joint_inverse
    (n : Z) (m : model) (s : solver) :
  1 ≤ n → in_int n →
  satisfies m (add_group_axioms n s) →
  two_sided_inverses n m ∧
  ∃ table v,
    extract_table n m = Some table ∧
    check_inverses n table (ident m) = Some true ∧
    verify_group n m (ident m) = Some v ∧ inv_ok v = true.
Proof.
  intros _ Hn Hs.
  apply satisfies_group_axioms in Hs as (_ & Hc & Hid & Has & Hinv).
  assert (two_sided_inverses n m) as Hjoint.
  { apply inverses_coincide; [done|..].
    - apply satisfies_identity; [apply Hc | done].
    - apply satisfies_assoc; [apply Hc | done].
    - by apply satisfies_inverse. }
  split; [done|].
  destruct (verify_group_closed n m Hn Hc)
    as (i & a & v & Ht & _ & _ & Hv & Hg & _ & _ & Hvt).
  apply Hvt in Hjoint. subst v.
  by exists (table_of n m), (Verdicts i a true).
Qed.

Lemma one_sided_existentials_give_joint_inverse_cyclic2 :
  two_sided_inverses 2 Examples.cyclic2 ∧
  ∃ table v,
    extract_table 2 Examples.cyclic2 = Some table ∧
    check_inverses 2 table (ident Examples.cyclic2) = Some true ∧
    verify_group 2 Examples.cyclic2 (ident Examples.cyclic2) = Some v ∧
    inv_ok v = true.
Proof.
  apply (one_sided_existentials_give_joint_inverse 2 Examples.cyclic2 []).
  - lia.
  - unfold in_int, INT_MIN, INT_MAX. lia.
  - apply satisfies_forallb. vm_compute. reflexivity.
Defined.

(** C3.  With the identity constant valued [e] in [0, n), the case split
    over the candidates [e'] holds exactly when [mul[e][a] == a] and
    [mul[a][e] == a]: the implications for [e' <> e] are true whatever the
    table is, and the two for [e' = e] are the two equations. *)
Theorem identity_case_split_load_bearing (n a : Z) (m : model) :
  1 ≤ n → 0 ≤ a < n → 0 ≤ ident m < n →
  (eval m (mk_and (left_id n a)) && eval m (mk_and (right_id n a)) = true
   ↔ op m (ident m) a = a ∧ op m a (ident m) = a) ∧
  (∀ e', e' ≠ ident m →
     eval m (implies (eq identity (int_val e'))
                     (eq (mul_table e' a) (int_val a))) = true ∧
     eval m (implies (eq identity (int_val e'))
                     (eq (mul_table a e') (int_val a))) = true) ∧
  (eval m (implies (eq identity (int_val (ident m)))
                   (eq (mul_table (ident m) a) (int_val a))) = true
   ↔ op m (ident m) a = a) ∧
  (eval m (implies (eq identity (int_val (ident m)))
                   (eq (mul_table a (ident m)) (int_val a))) = true
   ↔ op m a (ident m) = a).
Proof.
  intros _ _ He. split; [by apply identity_case_split|].
  split; [|split].
  - intros e' Hne. simpl. rewrite !implb_decide.
    unfold ident in Hne. simpl in Hne. split; intros E; by destruct Hne.
  - simpl. rewrite implb_decide. unfold op, ident. simpl.
    split; [intros H; by apply H | intros H _; exact H].
  - simpl. rewrite implb_decide. unfold op, ident. simpl.
    split; [intros H; by apply H | intros H _; exact H].
Qed.

Lemma identity_case_split_load_bearing_cyclic2 :
  (eval Examples.cyclic2 (mk_and (left_id 2 1))
   && eval Examples.cyclic2 (mk_and (right_id 2 1)) = true
   ↔ op Examples.cyclic2 (ident Examples.cyclic2) 1 = 1
     ∧ op Examples.cyclic2 1 (ident Examples.cyclic2) = 1) ∧
  (∀ e', e' ≠ ident Examples.cyclic2 →
     eval Examples.cyclic2
          (implies (eq identity (int_val e'))
                   (eq (mul_table e' 1) (int_val 1))) = true ∧
     eval Examples.cyclic2
          (implies (eq identity (int_val e'))
                   (eq (mul_table 1 e') (int_val 1))) = true) ∧
  (eval Examples.cyclic2
        (implies (eq identity (int_val (ident Examples.cyclic2)))
                 (eq (mul_table (ident Examples.cyclic2) 1) (int_val 1)))
   = true
   ↔ op Examples.cyclic2 (ident Examples.cyclic2) 1 = 1) ∧
  (eval Examples.cyclic2
        (implies (eq identity (int_val (ident Examples.cyclic2)))
                 (eq (mul_table 1 (ident Examples.cyclic2)) (int_val 1)))
   = true
   ↔ op Examples.cyclic2 1 (ident Examples.cyclic2) = 1).
Proof.
  apply (identity_case_split_load_bearing 2 1 Examples.cyclic2).
  - lia.
  - lia.
  - unfold ident. simpl. lia.
Defined.

(** C8.  When every entry of the table and the identity value lie in
    [0, n), extraction succeeds and every lookup the three checks of
    [verify_group] make is inside the table: each check returns its flag.
    The domain constraints the encoder asserts give that precondition. *)
Theorem verify_group_lookups_in_bounds (n : Z) (m : model) :
  in_int n → closed n m →
  (∃ table i a v,
     extract_table n m = Some table ∧
     check_identity n table (ident m) = Some i ∧
     check_assoc n table = Some a ∧
     check_inverses n table (ident m) = Some v ∧
     verify_group n m (ident m) = Some (Verdicts i a v)) ∧
  (satisfies m (domain_constraints n) ↔ closed n m).
Proof.
  intros Hn Hc. split; [|apply satisfies_domain].
  destruct (verify_group_closed n m Hn Hc)
    as (i & a & v & Ht & Hi & Ha & Hv & Hg & _).
  by exists (table_of n m), i, a, v.
Qed.

Lemma verify_group_lookups_in_bounds_cyclic2 :
  (∃ table i a v,
     extract_table 2 Examples.cyclic2 = Some table ∧
     check_identity 2 table (ident Examples.cyclic2) = Some i ∧
     check_assoc 2 table = Some a ∧
     check_inverses 2 table (ident Examples.cyclic2) = Some v ∧
     verify_group 2 Examples.cyclic2 (ident Examples.cyclic2)
     = Some (Verdicts i a v)) ∧
  (satisfies Examples.cyclic2 (domain_constraints 2)
   ↔ closed 2 Examples.cyclic2).
Proof.
  apply (verify_group_lookups_in_bounds 2 Examples.cyclic2).
  - unfold in_int, INT_MIN, INT_MAX. lia.
  - split.
    + intros i j Hi Hj. apply (Z.mod_pos_bound (i + j) 2). lia.
    + unfold ident. simpl. lia.
Defined.

(** The verifier does not re-check closure: on a table with an entry outside
    [0, n) the nested lookup of the associativity check leaves the table. *)
Lemma verify_group_stray_entry :
  ¬ closed 1 Examples.stray1 ∧
  extract_table 1 Examples.stray1 = Some [[1]] ∧
  check_assoc 1 [[1]] = None ∧
  verify_group 1 Examples.stray1 0 = None.
Proof.
  split; [|by vm_compute].
  intros [Hc _]. specialize (Hc 0 0). unfold op in Hc. simpl in Hc. lia.
Qed.

End GroupFacts.

(** ** Bitmask utilities *)

Section BitOpsFacts.
Import CInt BitOps.

Lemma wrap_in_int (z : Z) : in_int z → wrap z = z.
Proof.
  unfold in_int, INT_MIN, INT_MAX, wrap. intros Hz.
  rewrite Z.mod_small; lia.
Qed.

Lemma pow2_below_31 (n : Z) : 0 ≤ n < 31 → 1 ≤ 2 ^ n ≤ 2 ^ 30.
Proof.
  intros Hn. split.
  - pose proof (Z.pow_pos_nonneg 2 n). lia.
  - apply Z.pow_le_mono_r; lia.
Qed.

(** Below 31 the shift does not overflow: [1 << n] is [2 ^ n]. *)
Lemma shl1_pow2 (n : Z) : 0 ≤ n < 31 → shl1 n = 2 ^ n.
Proof.
  intros Hn. unfold shl1. rewrite Z.shiftl_1_l.
  apply wrap_in_int. pose proof (pow2_below_31 n Hn).
  unfold in_int, INT_MIN, INT_MAX. lia.
Qed.

(** ... and [(1 << n) - 1] is the mask of the [n] low bits. *)
Lemma full_mask (n : Z) : 0 ≤ n < 31 → wrap (shl1 n - 1) = 2 ^ n - 1.
Proof.
  intros Hn. rewrite shl1_pow2 by done.
  apply wrap_in_int. pose proof (pow2_below_31 n Hn).
  unfold in_int, INT_MIN, INT_MAX. lia.
Qed.

Lemma wrap_range (z : Z) : in_int (wrap z).
Proof.
  unfold in_int, INT_MIN, INT_MAX, wrap.
  pose proof (Z.mod_pos_bound (z + 2 ^ 31) (2 ^ 32)). lia.
Qed.

Lemma is_subset_refl (i : Z) : is_subset i i = true.
Proof. unfold is_subset. rewrite Z.land_diag. apply Z.eqb_refl. Qed.

Lemma cardinality_loop_ones (k fuel : nat) (count : Z) :
  (k ≤ fuel)%nat → 0 ≤ count → count + Z.of_nat k ≤ INT_MAX →
  cardinality_loop fuel (2 ^ Z.of_nat k - 1) count
  = Some (count + Z.of_nat k).
Proof.
  revert fuel count. induction k as [|k IH]; intros fuel count Hf Hc Hk.
  - destruct fuel; simpl; f_equal; lia.
  - destruct fuel as [|fuel]; [lia|].
    rewrite Nat2Z.inj_succ, Z.pow_succ_r in * by lia.
    pose proof (Z.pow_pos_nonneg 2 (Z.of_nat k)) as Hpos.
    simpl. destruct (Z.eqb_spec (2 * 2 ^ Z.of_nat k - 1) 0) as [E|_]; [lia|].
    assert (Z.shiftr (2 * 2 ^ Z.of_nat k - 1) 1 = 2 ^ Z.of_nat k - 1) as ->.
    { rewrite Z.shiftr_div_pow2 by lia. change (2 ^ 1) with 2.
      symmetry. apply Z.div_unique with (r := 1); lia. }
    assert (Z.land (2 * 2 ^ Z.of_nat k - 1) 1 = 1) as ->.
    { change 1 with (Z.ones 1) at 2. rewrite Z.land_ones by lia.
      change (2 ^ 1) with 2. symmetry.
      apply Z.mod_unique with (q := 2 ^ Z.of_nat k - 1); lia. }
    rewrite wrap_in_int by (unfold in_int, INT_MIN, INT_MAX in *; lia).
    rewrite IH by (unfold INT_MAX in *; lia). f_equal. lia.
Qed.

(** [^] on two [int]s needs no wrap-around: the result is an [int]. *)
Lemma lxor_below (k a b : Z) :
  0 ≤ k → 0 ≤ a < 2 ^ k → 0 ≤ b < 2 ^ k → 0 ≤ Z.lxor a b < 2 ^ k.
Proof.
  intros Hk Ha Hb.
  assert (0 ≤ Z.lxor a b) as H0 by (apply Z.lxor_nonneg; lia).
  split; [done|].
  assert (Z.lxor a b = Z.lxor a b mod 2 ^ k) as ->.
  { rewrite <- (Z.mod_small a (2 ^ k)) at 1 by done.
    rewrite <- (Z.mod_small b (2 ^ k)) at 1 by done.
    rewrite <- !Z.land_ones by done.
    apply Z.bits_inj'. intros i Hi.
    rewrite !Z.lxor_spec, !Z.land_spec, Z.lxor_spec.
    by destruct (Z.testbit a i), (Z.testbit b i), (Z.testbit (Z.ones k) i). }
  apply Z.mod_pos_bound. lia.
Qed.

Lemma lxor_in_int (a b : Z) : in_int a → in_int b → in_int (Z.lxor a b).
Proof.
  unfold in_int, INT_MIN, INT_MAX. intros Ha Hb.
  assert (- 2 ^ 31 ≤ Z.lxor a b < 2 ^ 31); [|lia].
  destruct (Z.neg_nonneg_cases a) as [Na|Pa];
    destruct (Z.neg_nonneg_cases b) as [Nb|Pb].
  - rewrite <- Z.lxor_lnot_lnot.
    pose proof (lxor_below 31 (Z.lnot a) (Z.lnot b)) as H.
    unfold Z.lnot in *. lia.
  - rewrite <- (Z.lnot_involutive a), <- Z.lnot_lxor_l.
    pose proof (lxor_below 31 (Z.lnot a) b) as H.
    unfold Z.lnot in *. lia.
  - rewrite <- (Z.lnot_involutive b), <- Z.lnot_lxor_r.
    pose proof (lxor_below 31 a (Z.lnot b)) as H.
    unfold Z.lnot in *. lia.
  - pose proof (lxor_below 31 a b). lia.
Qed.

(** C9.  Complement with respect to a fixed universe is an involution: the
    complement of an [int] mask is again an [int], and complementing it
    once more gives the mask back. *)
Theorem set_complement_involutive (mask n : Z) :
  0 ≤ n < 31 → in_int mask →
  in_int (set_complement mask n) ∧
  set_complement (set_complement mask n) n = mask.
Proof.
  intros Hn Hm. unfold set_complement. split.
  - apply lxor_in_int; [apply wrap_range | done].
  - by rewrite <- Z.lxor_assoc, Z.lxor_nilpotent, Z.lxor_0_l.
Qed.

Lemma set_complement_involutive_5_of_3 :
  in_int (set_complement 5 3) ∧
  set_complement (set_complement 5 3) 3 = 5.
Proof.
  apply (set_complement_involutive 5 3).
  - lia.
  - unfold in_int, INT_MIN, INT_MAX. lia.
Defined.

(** C10.  The popcount loop ends on the full mask [(1 << n) - 1], after [n]
    rounds, and returns [n]. *)
Theorem cardinality_full_mask (n : Z) (fuel : nat) :
  0 ≤ n < 31 → (Z.to_nat n ≤ fuel)%nat →
  cardinality fuel (wrap (shl1 n - 1)) = Some n.
Proof.
  intros Hn Hf. rewrite full_mask by done. unfold cardinality.
  rewrite <- (Z2Nat.id n) at 1 by lia.
  rewrite cardinality_loop_ones; [f_equal; lia|done|lia|].
  unfold INT_MAX. lia.
Qed.

Lemma cardinality_full_mask_3 :
  cardinality 3 (wrap (shl1 3 - 1)) = Some 3.
Proof.
  apply (cardinality_full_mask 3 3).
  - lia.
  - vm_compute. lia.
Defined.

End BitOpsFacts.

(** ** The preorder encoders and the FrameFinder verifier *)

Section PreorderFacts.
Import CInt Z3 BitOps.

Lemma elem_of_reflexivity (n i : Z) :
  0 ≤ i < PartialPreorderFinder.powerset_size n →
  PartialPreorderFinder.R i i ∈ PartialPreorderFinder.reflexivity n.
Proof.
  intros Hi. unfold PartialPreorderFinder.reflexivity.
  apply list_elem_of_bind. exists i. split; [apply list_elem_of_singleton; done|].
  by apply elem_of_range.
Qed.

Lemma elem_of_monotone_pairs (ps i j : Z) :
  0 ≤ i < ps → 0 ≤ j < ps → is_subset i j = true →
  bool_const (R_ i j)
  ∈ (i ← range ps; j ← range ps;
     if is_subset i j then [bool_const (R_ i j)] else []).
Proof.
  intros Hi Hj Hs.
  apply list_elem_of_bind. exists i. split; [|by apply elem_of_range].
  apply list_elem_of_bind. exists j. split; [|by apply elem_of_range].
  rewrite Hs. by apply list_elem_of_singleton.
Qed.

Section Frame.
Import FrameFinder.
Variable vars : FrameVariables.

Lemma elem_of_encode_monotonicity (s : solver) (i j : Z) :
  0 ≤ i < size vars → 0 ≤ j < size vars → is_subset i j = true →
  R i j ∈ encode_monotonicity vars s.
Proof.
  intros Hi Hj Hs. unfold encode_monotonicity.
  apply elem_of_app. right. by apply elem_of_monotone_pairs.
Qed.

Lemma satisfies_elem_of (m : model) (s : solver) (p : expr) :
  satisfies m s → p ∈ s → eval m p = true.
Proof. unfold satisfies. rewrite Forall_forall. auto. Qed.

(** Whether [size() - 1] is a row of the matrix. *)
Lemma get_R_full_empty :
  1 ≤ size vars → in_int (size vars) →
  get_R vars (wrap (size vars - 1)) 0 = Some (R (size vars - 1) 0).
Proof.
  intros H1 Hi. unfold get_R.
  rewrite wrap_in_int by (unfold in_int, INT_MIN, INT_MAX in *; lia).
  rewrite bool_decide_eq_true_2; [done|lia].
Qed.

Lemma encode_non_triviality_Some (s : solver) :
  1 ≤ size vars → in_int (size vars) →
  encode_non_triviality vars s = Some (s ++ [not_ (R (size vars - 1) 0)]).
Proof.
  intros H1 Hi. unfold encode_non_triviality. simpl.
  by rewrite get_R_full_empty.
Qed.

Lemma cell_extract_matrix (m : model) (i j : Z) :
  0 ≤ i < size vars → 0 ≤ j < size vars →
  cell (extract_matrix vars m) i j = Some (bool_of m (R_ i j)).
Proof.
  apply (cell_fmap_range (λ i j, eval m (R i j))).
Qed.

Lemma check_reflexive_extract (m : model) :
  check_reflexive vars (extract_matrix vars m)
  = Some (forallb (λ i, bool_of m (R_ i i)) (range (size vars))).
Proof.
  apply for_while_range. intros i Hi. by apply cell_extract_matrix.
Qed.

Lemma check_transitive_extract (m : model) :
  check_transitive vars (extract_matrix vars m)
  = Some (forallb (λ i, forallb (λ j, forallb (λ k,
            implb (bool_of m (R_ i j) && bool_of m (R_ j k))
                  (bool_of m (R_ i k)))
          (range (size vars))) (range (size vars))) (range (size vars))).
Proof.
  unfold check_transitive.
  apply for_while_range. intros i Hi.
  apply for_while_range. intros j Hj.
  apply for_while_range. intros k Hk. unfold transitive_step.
  rewrite (cell_extract_matrix m i j) by done. simpl.
  destruct (bool_of m (R_ i j)); [|done].
  rewrite (cell_extract_matrix m j k) by done. simpl.
  destruct (bool_of m (R_ j k)); [|done].
  by rewrite (cell_extract_matrix m i k).
Qed.

Lemma check_monotone_extract (m : model) :
  check_monotone vars (extract_matrix vars m)
  = Some (forallb (λ i, forallb (λ j,
            implb (is_subset i j) (bool_of m (R_ i j)))
          (range (size vars))) (range (size vars))).
Proof.
  unfold check_monotone.
  rewrite (for_each_range _ _ (λ i, forallb (λ j,
             implb (is_subset i j) (bool_of m (R_ i j)))
           (range (size vars)))); [done|].
  intros i ok Hi. apply for_each_range. intros j b Hj.
  unfold monotone_step. destruct (is_subset i j); simpl.
  - rewrite (cell_extract_matrix m i j) by done. simpl.
    destruct (bool_of m (R_ i j)), b; done.
  - by rewrite andb_true_r.
Qed.

Lemma verify_non_triviality_extract (m : model) :
  1 ≤ size vars → in_int (size vars) →
  verify_non_triviality vars (extract_matrix vars m)
  = Some (if bool_of m (R_ (size vars - 1) 0)
          then assertion_failed "Non-triviality check failed"
          else passed).
Proof.
  intros H1 Hi. unfold verify_non_triviality. simpl.
  rewrite wrap_in_int by (unfold in_int, INT_MIN, INT_MAX in *; lia).
  rewrite cell_extract_matrix by lia. simpl.
  by destruct (bool_of m (R_ (size vars - 1) 0)).
Qed.

(** What a model of each encoder's output looks like. *)

Lemma satisfies_encode_monotonicity (m : model) (s : solver) :
  satisfies m (encode_monotonicity vars s) →
  ∀ i j, 0 ≤ i < size vars → 0 ≤ j < size vars →
    is_subset i j = true → bool_of m (R_ i j) = true.
Proof.
  intros Hs i j Hi Hj Hij.
  apply (satisfies_elem_of m _ (R i j) Hs).
  by apply elem_of_encode_monotonicity.
Qed.

Lemma satisfies_encode_transitivity (m : model) (s : solver) :
  satisfies m (encode_transitivity vars s) →
  ∀ i j k, 0 ≤ i < size vars → 0 ≤ j < size vars → 0 ≤ k < size vars →
    implb (bool_of m (R_ i j) && bool_of m (R_ j k)) (bool_of m (R_ i k))
    = true.
Proof.
  intros Hs i j k Hi Hj Hk.
  apply (satisfies_elem_of m _
           (implies (and_ (R i j) (R j k)) (R i k)) Hs).
  unfold encode_transitivity. apply elem_of_app. right.
  apply list_elem_of_bind. exists i. split; [|by apply elem_of_range].
  apply list_elem_of_bind. exists j. split; [|by apply elem_of_range].
  apply list_elem_of_bind. exists k. split; [|by apply elem_of_range].
  by apply list_elem_of_singleton.
Qed.

Lemma encode_transitivity_no_constant (i j : Z) :
  R i j ∉ encode_transitivity vars [].
Proof.
  unfold encode_transitivity. simpl.
  intros (a & H & _)%list_elem_of_bind.
  apply list_elem_of_bind in H as (b & H & _).
  apply list_elem_of_bind in H as (c & H & _).
  apply list_elem_of_singleton in H. discriminate.
Qed.

Lemma verify_preorder_extract (m : model) (s : solver) :
  satisfies m (encode_monotonicity vars (encode_transitivity vars s)) →
  check_reflexive vars (extract_matrix vars m) = Some true ∧
  check_transitive vars (extract_matrix vars m) = Some true ∧
  verify_preorder vars (extract_matrix vars m) = Some passed.
Proof.
  intros Hs.
  assert (check_reflexive vars (extract_matrix vars m) = Some true) as Hr.
  { rewrite check_reflexive_extract. f_equal. apply forallb_range.
    intros i Hi.
    apply (satisfies_encode_monotonicity m _ Hs); [done..|].
    apply is_subset_refl. }
  assert (check_transitive vars (extract_matrix vars m) = Some true) as Ht.
  { rewrite check_transitive_extract. f_equal.
    unfold encode_monotonicity in Hs.
    apply satisfies_app in Hs as [Hs _].
    apply forallb_range. intros i Hi.
    apply forallb_range. intros j Hj.
    apply forallb_range. intros k Hk.
    by apply (satisfies_encode_transitivity m s Hs). }
  split; [done|]. split; [done|].
  unfold verify_preorder. rewrite Hr. simpl. by rewrite Ht.
Qed.

Lemma verify_monotonicity_extract (m : model) (s : solver) :
  satisfies m (encode_monotonicity vars s) →
  check_monotone vars (extract_matrix vars m) = Some true ∧
  verify_monotonicity vars (extract_matrix vars m) = Some passed.
Proof.
  intros Hs.
  assert (check_monotone vars (extract_matrix vars m) = Some true) as Hm.
  { rewrite check_monotone_extract. f_equal.
    apply forallb_range. intros i Hi. apply forallb_range. intros j Hj.
    destruct (is_subset i j) eqn:Hij; [|done]. simpl.
    by apply (satisfies_encode_monotonicity m s Hs). }
  split; [done|]. unfold verify_monotonicity. by rewrite Hm.
Qed.

(** [main]'s assertions exist exactly when [size() - 1] is a row. *)
Lemma asserted_inv (s : solver) :
  in_int (size vars) → asserted vars = Some s →
  1 ≤ size vars ∧
  s = encode_monotonicity vars (encode_transitivity vars [])
      ++ [not_ (R (size vars - 1) 0)].
Proof.
  unfold asserted. intros Hi Ha.
  assert (1 ≤ size vars) as H1.
  { unfold encode_non_triviality, get_R in Ha. simpl in Ha.
    case_bool_decide as Hb; [lia|done]. }
  rewrite encode_non_triviality_Some in Ha by done.
  by injection Ha as <-.
Qed.

(** A model of everything [main] asserts passes all three verifiers. *)
Lemma display_model_passes (m : model) (s : solver) :
  in_int (size vars) →
  asserted vars = Some s → satisfies m s →
  display_model vars m = Some passed.
Proof.
  intros Hi Ha Hs.
  destruct (asserted_inv s Hi Ha) as [H1 ->].
  apply satisfies_app in Hs as [Hs Hn].
  unfold display_model.
  destruct (verify_preorder_extract m [] Hs) as (_ & _ & ->). simpl.
  destruct (verify_monotonicity_extract m _ Hs) as (_ & ->). simpl.
  rewrite verify_non_triviality_extract by done.
  unfold satisfies in Hn. rewrite Forall_singleton in Hn. simpl in Hn.
  by destruct (bool_of m (R_ (size vars - 1) 0)).
Qed.

End Frame.

Lemma size_mkFrameVariables (n : Z) :
  0 ≤ n < 31 →
  FrameFinder.size (FrameFinder.mkFrameVariables n) = 2 ^ n ∧
  1 ≤ 2 ^ n ∧ in_int (2 ^ n).
Proof.
  intros Hn. simpl. rewrite shl1_pow2 by done.
  pose proof (pow2_below_31 n Hn). unfold in_int, INT_MIN, INT_MAX. lia.
Qed.

(** The enumeration answers [sat] with a model of the set only. *)
Lemma enumeration_sound (ps : Z) (s : solver) (m : model) :
  Enumeration.check ps s = sat m → satisfies m s.
Proof.
  unfold Enumeration.check. intros H. apply satisfies_forallb.
  destruct (find _ _) as [m'|] eqn:E; [|done].
  injection H as <-. by apply find_some in E as [_ E].
Qed.

(** The FrameFinder program on the universe {0}: the first assignment the
    enumeration finds passes all three verifiers. *)
Example run_universe_one :
  FrameFinder.run (Enumeration.check 2) 1
  = Some (FrameFinder.SAT_verified FrameFinder.passed).
Proof. vm_compute. reflexivity. Qed.

(** *** Main results on the preorder family *)

(** C4.  For every index [i] below [2 ^ n], [R[i][i]] is one of the
    propositions handed to the solver, in both revisions:
    [add_preorder_axioms] asserts it in PartialPreorderFinder, and in the
    FrameFinder revision it is among what [main] asserts (there it comes
    from [encode_monotonicity], at [i = j]). *)
Theorem reflexivity_asserted_in_both_revisions (n i : Z) :
  0 ≤ n < 31 → 0 ≤ i < 2 ^ n →
  PartialPreorderFinder.R i i ∈ PartialPreorderFinder.add_preorder_axioms n []
  ∧ PartialPreorderFinder.R i i ∈ PartialPreorderFinder.asserted n
  ∧ ∃ s, FrameFinder.asserted (FrameFinder.mkFrameVariables n) = Some s
         ∧ FrameFinder.R i i ∈ s.
Proof.
  intros Hn Hi.
  assert (PartialPreorderFinder.R i i
          ∈ PartialPreorderFinder.add_preorder_axioms n []) as HA.
  { unfold PartialPreorderFinder.add_preorder_axioms. simpl.
    apply elem_of_app. left. apply elem_of_reflexivity.
    unfold PartialPreorderFinder.powerset_size. by rewrite shl1_pow2. }
  split; [done|]. split.
  - unfold PartialPreorderFinder.asserted,
      PartialPreorderFinder.require_nontrivial,
      PartialPreorderFinder.add_monotonicity.
    apply elem_of_app. left. apply elem_of_app. by left.
  - destruct (size_mkFrameVariables n Hn) as (Hsz & H1 & Hint).
    unfold FrameFinder.asserted.
    rewrite encode_non_triviality_Some by (rewrite Hsz; done).
    eexists. split; [done|]. apply elem_of_app. left.
    apply elem_of_encode_monotonicity; [rewrite Hsz; done..|].
    apply is_subset_refl.
Qed.

Lemma reflexivity_asserted_in_both_revisions_1_1 :
  PartialPreorderFinder.R 1 1 ∈ PartialPreorderFinder.add_preorder_axioms 1 []
  ∧ PartialPreorderFinder.R 1 1 ∈ PartialPreorderFinder.asserted 1
  ∧ ∃ s, FrameFinder.asserted (FrameFinder.mkFrameVariables 1) = Some s
         ∧ FrameFinder.R 1 1 ∈ s.
Proof.
  apply (reflexivity_asserted_in_both_revisions 1 1).
  - lia.
  - simpl. lia.
Defined.

(** C5.  For universe size 0 the powerset has one subset, index 0, which is
    both the full and the empty set.  Monotonicity asserts [R[0][0]] and
    non-triviality asserts its negation, so no model exists, and a run
    whose solver is sound and decides this set reports UNSAT; no lookup
    leaves a vector on the way. *)
Theorem universe_zero_reports_unsat (check : solver → check_result) :
  (∀ s m, FrameFinder.asserted (FrameFinder.mkFrameVariables 0) = Some s →
          check s = sat m → satisfies m s) →
  (∀ s, FrameFinder.asserted (FrameFinder.mkFrameVariables 0) = Some s →
        check s ≠ unknown) →
  FrameFinder.size (FrameFinder.mkFrameVariables 0) = 1 ∧
  (∀ s0, ∃ s,
     FrameFinder.encode_non_triviality (FrameFinder.mkFrameVariables 0)
       (FrameFinder.encode_monotonicity (FrameFinder.mkFrameVariables 0) s0)
     = Some s ∧
     FrameFinder.R 0 0 ∈ s ∧ not_ (FrameFinder.R 0 0) ∈ s ∧
     ∀ m, ¬ satisfies m s) ∧
  FrameFinder.run check 0 = Some FrameFinder.UNSAT_reported.
Proof.
  intros Hsound Hdec.
  assert (∀ s0, ∃ s,
     FrameFinder.encode_non_triviality (FrameFinder.mkFrameVariables 0)
       (FrameFinder.encode_monotonicity (FrameFinder.mkFrameVariables 0) s0)
     = Some s ∧
     FrameFinder.R 0 0 ∈ s ∧ not_ (FrameFinder.R 0 0) ∈ s ∧
     ∀ m, ¬ satisfies m s) as Hunsat.
  { intros s0.
    exists (FrameFinder.encode_monotonicity
              (FrameFinder.mkFrameVariables 0) s0
            ++ [not_ (FrameFinder.R 0 0)]).
    split; [reflexivity|].
    assert (FrameFinder.R 0 0
            ∈ FrameFinder.encode_monotonicity
                (FrameFinder.mkFrameVariables 0) s0) as Hin.
    { by apply elem_of_encode_monotonicity. }
    split; [apply elem_of_app; by left|].
    split; [apply elem_of_app; right; by apply list_elem_of_singleton|].
    intros m [Hm Hn]%satisfies_app.
    pose proof (satisfies_elem_of m _ _ Hm Hin) as Hpos.
    unfold satisfies in Hn. rewrite Forall_singleton in Hn.
    simpl in Hpos, Hn. rewrite Hpos in Hn. done. }
  split; [reflexivity|]. split; [done|].
  destruct (Hunsat (FrameFinder.encode_transitivity
                      (FrameFinder.mkFrameVariables 0) []))
    as (s & Hs & _ & _ & Hno).
  unfold FrameFinder.run, FrameFinder.asserted. rewrite Hs. simpl.
  specialize (Hsound s). specialize (Hdec s Hs).
  destruct (check s) as [|m|]; [done| |done].
  destruct (Hno m). by apply Hsound.
Qed.

Lemma universe_zero_reports_unsat_by_enumeration :
  FrameFinder.size (FrameFinder.mkFrameVariables 0) = 1 ∧
  (∀ s0, ∃ s,
     FrameFinder.encode_non_triviality (FrameFinder.mkFrameVariables 0)
       (FrameFinder.encode_monotonicity (FrameFinder.mkFrameVariables 0) s0)
     = Some s ∧
     FrameFinder.R 0 0 ∈ s ∧ not_ (FrameFinder.R 0 0) ∈ s ∧
     ∀ m, ¬ satisfies m s) ∧
  FrameFinder.run (Enumeration.check 1) 0 = Some FrameFinder.UNSAT_reported.
Proof.
  apply (universe_zero_reports_unsat (Enumeration.check 1)).
  - intros s m Hs. vm_compute in Hs. injection Hs as <-.
    vm_compute. discriminate.
  - intros s Hs. vm_compute in Hs. injection Hs as <-.
    vm_compute. discriminate.
Defined.

(** C6.  Once monotonicity is asserted, every model has [R[i][j]] true for
    each pair of indices with [is_subset(i, j)]; the extracted matrix holds
    true there, and [verify_monotonicity] passes on it. *)
Theorem monotonicity_recheck_passes (n : Z) (m : model) (s : solver) :
  satisfies m (FrameFinder.encode_monotonicity
                 (FrameFinder.mkFrameVariables n) s) →
  (∀ i j, 0 ≤ i < FrameFinder.size (FrameFinder.mkFrameVariables n) →
          0 ≤ j < FrameFinder.size (FrameFinder.mkFrameVariables n) →
          is_subset i j = true →
          bool_of m (R_ i j) = true ∧
          cell (FrameFinder.extract_matrix
                  (FrameFinder.mkFrameVariables n) m) i j = Some true) ∧
  FrameFinder.check_monotone (FrameFinder.mkFrameVariables n)
    (FrameFinder.extract_matrix (FrameFinder.mkFrameVariables n) m)
  = Some true ∧
  FrameFinder.verify_monotonicity (FrameFinder.mkFrameVariables n)
    (FrameFinder.extract_matrix (FrameFinder.mkFrameVariables n) m)
  = Some FrameFinder.passed.
Proof.
  intros Hs. split; [|by apply (verify_monotonicity_extract _ m s)].
  intros i j Hi Hj Hij.
  assert (bool_of m (R_ i j) = true) as Hb.
  { by apply (satisfies_encode_monotonicity _ m s Hs). }
  split; [done|]. by rewrite cell_extract_matrix, Hb.
Qed.

Lemma monotonicity_recheck_passes_inclusion :
  (∀ i j, 0 ≤ i < FrameFinder.size (FrameFinder.mkFrameVariables 1) →
          0 ≤ j < FrameFinder.size (FrameFinder.mkFrameVariables 1) →
          is_subset i j = true →
          bool_of Examples.inclusion (R_ i j) = true ∧
          cell (FrameFinder.extract_matrix
                  (FrameFinder.mkFrameVariables 1) Examples.inclusion) i j
          = Some true) ∧
  FrameFinder.check_monotone (FrameFinder.mkFrameVariables 1)
    (FrameFinder.extract_matrix
       (FrameFinder.mkFrameVariables 1) Examples.inclusion)
  = Some true ∧
  FrameFinder.verify_monotonicity (FrameFinder.mkFrameVariables 1)
    (FrameFinder.extract_matrix
       (FrameFinder.mkFrameVariables 1) Examples.inclusion)
  = Some FrameFinder.passed.
Proof.
  apply (monotonicity_recheck_passes 1 Examples.inclusion []).
  apply satisfies_forallb. vm_compute. reflexivity.
Defined.

(** C7.  [is_subset(i, i)] holds for every [i], so [encode_monotonicity]
    asserts [R[i][i]] for every index.  The FrameFinder revision has no
    reflexivity encoder, yet every model of what its [main] asserts is
    reflexive: the reflexivity loop of [verify_preorder] ends with its flag
    true and the assertion after it does not fire. *)
Theorem frame_models_are_reflexive (n : Z) (m : model) (s : solver) :
  FrameFinder.asserted (FrameFinder.mkFrameVariables n) = Some s →
  satisfies m s →
  (∀ i, is_subset i i = true) ∧
  (∀ i, 0 ≤ i < FrameFinder.size (FrameFinder.mkFrameVariables n) →
        FrameFinder.R i i
        ∈ FrameFinder.encode_monotonicity (FrameFinder.mkFrameVariables n) []
        ∧ FrameFinder.R i i ∈ s
        ∧ bool_of m (R_ i i) = true
        ∧ cell (FrameFinder.extract_matrix
                  (FrameFinder.mkFrameVariables n) m) i i = Some true) ∧
  FrameFinder.check_reflexive (FrameFinder.mkFrameVariables n)
    (FrameFinder.extract_matrix (FrameFinder.mkFrameVariables n) m)
  = Some true ∧
  FrameFinder.verify_preorder (FrameFinder.mkFrameVariables n)
    (FrameFinder.extract_matrix (FrameFinder.mkFrameVariables n) m)
  ≠ Some (FrameFinder.assertion_failed "Reflexivity check failed").
Proof.
  intros Ha Hs.
  assert (in_int (FrameFinder.size (FrameFinder.mkFrameVariables n))) as Hi.
  { apply wrap_range. }
  destruct (asserted_inv _ s Hi Ha) as [H1 ->].
  apply satisfies_app in Hs as [Hs Hn].
  split; [apply is_subset_refl|]. split.
  - intros i Hr.
    assert (bool_of m (R_ i i) = true) as Hb.
    { apply (satisfies_encode_monotonicity _ m _ Hs); [done..|].
      apply is_subset_refl. }
    split; [apply elem_of_encode_monotonicity; [done..|apply is_subset_refl]|].
    split.
    + apply elem_of_app. left.
      apply elem_of_encode_monotonicity; [done..|apply is_subset_refl].
    + split; [done|]. by rewrite cell_extract_matrix, Hb.
  - destruct (verify_preorder_extract _ m [] Hs) as (Hr & _ & Hv).
    split; [done|]. by rewrite Hv.
Qed.

Lemma frame_models_are_reflexive_inclusion :
  (∀ i, is_subset i i = true) ∧
  (∀ i, 0 ≤ i < FrameFinder.size (FrameFinder.mkFrameVariables 1) →
        FrameFinder.R i i
        ∈ FrameFinder.encode_monotonicity (FrameFinder.mkFrameVariables 1) []
        ∧ FrameFinder.R i i
          ∈ FrameFinder.encode_monotonicity (FrameFinder.mkFrameVariables 1)
              (FrameFinder.encode_transitivity
                 (FrameFinder.mkFrameVariables 1) [])
            ++ [not_ (FrameFinder.R 1 0)]
        ∧ bool_of Examples.inclusion (R_ i i) = true
        ∧ cell (FrameFinder.extract_matrix
                  (FrameFinder.mkFrameVariables 1) Examples.inclusion) i i
          = Some true) ∧
  FrameFinder.check_reflexive (FrameFinder.mkFrameVariables 1)
    (FrameFinder.extract_matrix
       (FrameFinder.mkFrameVariables 1) Examples.inclusion)
  = Some true ∧
  FrameFinder.verify_preorder (FrameFinder.mkFrameVariables 1)
    (FrameFinder.extract_matrix
       (FrameFinder.mkFrameVariables 1) Examples.inclusion)
  ≠ Some (FrameFinder.assertion_failed "Reflexivity check failed").
Proof.
  apply (frame_models_are_reflexive 1 Examples.inclusion).
  - reflexivity.
  - apply satisfies_forallb. vm_compute. reflexivity.
Defined.

End PreorderFacts.

(** * Further properties of the code *)

(** ** GroupFinder: size, models and outcome of a run *)

Section GroupMore.
Import CInt Z3 GroupFinder.

Lemma length_range (n : Z) : length (range n) = Z.to_nat n.
Proof. apply length_seqZ. Qed.

Lemma length_bind_const {A B} (f : A → list B) (l : list A) (k : nat) :
  (∀ x, length (f x) = k) → length (l ≫= f) = (length l * k)%nat.
Proof.
  intros H. induction l as [|x l IH]; [done|].
  change ((x :: l) ≫= f) with (f x ++ (l ≫= f)).
  rewrite length_app, H, IH. simpl. lia.
Qed.

Lemma length_assoc_axioms (n : Z) :
  length (assoc_axioms n) = (Z.to_nat n ^ 5)%nat.
Proof.
  unfold assoc_axioms.
  rewrite (length_bind_const _ _ (Z.to_nat n ^ 4)%nat), length_range.
  { simpl. lia. }
  intros a. rewrite (length_bind_const _ _ (Z.to_nat n ^ 3)%nat), length_range.
  { simpl. lia. }
  intros b. rewrite (length_bind_const _ _ (Z.to_nat n ^ 2)%nat), length_range.
  { simpl. lia. }
  intros c. rewrite (length_bind_const _ _ (Z.to_nat n ^ 1)%nat), length_range.
  { simpl. lia. }
  intros ab. rewrite (length_bind_const _ _ 1%nat), length_range.
  { simpl. lia. }
  done.
Qed.

(** X1.  The encoder hands [n^5] associativity implications to the solver,
    and [n^5 + n^2 + 4 n + 1] propositions in all. *)
Theorem group_axioms_count (n : Z) :
  0 ≤ n →
  Z.of_nat (length (assoc_axioms n)) = n ^ 5 ∧
  Z.of_nat (length (add_group_axioms n [])) = n ^ 5 + n ^ 2 + 4 * n + 1.
Proof.
  intros Hn.
  assert (Z.of_nat (length (assoc_axioms n)) = n ^ 5) as Ha.
  { rewrite length_assoc_axioms, Nat2Z.inj_pow, Z2Nat.id by done. done. }
  split; [done|].
  unfold add_group_axioms. simpl.
  rewrite !length_app, !Nat2Z.inj_add, Ha.
  unfold domain_constraints, identity_axioms, inverse_axioms.
  rewrite length_app.
  rewrite (length_bind_const _ _ (Z.to_nat n)), length_range.
  2:{ intros i. rewrite (length_bind_const _ _ 1%nat), length_range; [lia|done]. }
  rewrite !(length_bind_const _ _ 2%nat), !length_range by done.
  simpl. lia.
Qed.

Lemma group_axioms_count_7 :
  Z.of_nat (length (assoc_axioms 7)) = 7 ^ 5 ∧
  Z.of_nat (length (add_group_axioms 7 [])) = 7 ^ 5 + 7 ^ 2 + 4 * 7 + 1.
Proof. apply (group_axioms_count 7). lia. Defined.

Lemma cyclic_is_group (n : Z) :
  1 ≤ n →
  closed n (Examples.cyclic n) ∧ two_sided_identity n (Examples.cyclic n) ∧
  associative n (Examples.cyclic n) ∧
  one_sided_inverses n (Examples.cyclic n).
Proof.
  intros Hn. unfold closed, two_sided_identity, associative,
    one_sided_inverses, op, ident. simpl.
  split; [split; [|lia]|split; [|split]].
  - intros i j _ _. apply Z.mod_pos_bound. lia.
  - intros a Ha. rewrite ?Z.add_0_l, ?Z.add_0_r.
    split; by apply Z.mod_small.
  - intros a b c _ _ _.
    rewrite Zplus_mod_idemp_l, Zplus_mod_idemp_r. f_equal. lia.
  - intros a Ha.
    assert (0 ≤ (n - a) mod n < n) as Hb by (apply Z.mod_pos_bound; lia).
    split; exists ((n - a) mod n); (split; [done|]).
    + rewrite Zplus_mod_idemp_r.
      replace (a + (n - a)) with n by lia. apply Z.mod_same. lia.
    + rewrite Zplus_mod_idemp_l.
      replace (n - a + a) with n by lia. apply Z.mod_same. lia.
Qed.

Lemma cyclic_satisfies (n : Z) :
  1 ≤ n → satisfies (Examples.cyclic n) (add_group_axioms n []).
Proof.
  intros Hn. destruct (cyclic_is_group n Hn) as (Hc & Hi & Ha & Hv).
  apply satisfies_group_axioms.
  split; [constructor|]. split; [done|].
  split; [by apply satisfies_identity; [apply Hc|]|].
  split; [by apply satisfies_assoc; [apply Hc|]|].
  by apply satisfies_inverse.
Qed.

(** X2.  What the encoder asserts has a model exactly when the cardinality
    is at least 1: the cyclic group is one, and for [n <= 0] the domain
    constraint on [identity] already has none. *)
Theorem group_axioms_satisfiable_iff (n : Z) :
  (∃ m, satisfies m (add_group_axioms n [])) ↔ 1 ≤ n.
Proof.
  split.
  - intros [m Hm]. apply satisfies_group_axioms in Hm as (_ & [_ He] & _).
    lia.
  - intros Hn. exists (Examples.cyclic n). by apply cyclic_satisfies.
Qed.

Lemma group_model (n : Z) (m : model) (s : solver) :
  satisfies m (add_group_axioms n s) →
  closed n m ∧ two_sided_identity n m ∧ associative n m ∧
  two_sided_inverses n m.
Proof.
  intros (_ & Hc & Hid & Has & Hinv)%satisfies_group_axioms.
  apply satisfies_identity in Hid; [|apply Hc].
  apply satisfies_assoc in Has; [|apply Hc].
  apply satisfies_inverse in Hinv.
  split; [done|]. split; [done|]. split; [done|].
  by apply inverses_coincide.
Qed.

Lemma group_cancel_l (n : Z) (m : model) (s : solver) (a b c : Z) :
  satisfies m (add_group_axioms n s) →
  0 ≤ a < n → 0 ≤ b < n → 0 ≤ c < n →
  op m a b = op m a c → b = c.
Proof.
  intros ([Hc He] & Hid & Has & Hinv)%group_model Ha Hb Hc' E.
  destruct (Hinv a Ha) as (a' & Ha' & _ & Hl).
  rewrite <- (proj1 (Hid b Hb)), <- (proj1 (Hid c Hc')), <- Hl.
  rewrite !Has by done. by rewrite E.
Qed.

Lemma group_cancel_r (n : Z) (m : model) (s : solver) (a b c : Z) :
  satisfies m (add_group_axioms n s) →
  0 ≤ a < n → 0 ≤ b < n → 0 ≤ c < n →
  op m b a = op m c a → b = c.
Proof.
  intros ([Hc He] & Hid & Has & Hinv)%group_model Ha Hb Hc' E.
  destruct (Hinv a Ha) as (a' & Ha' & Hr & _).
  rewrite <- (proj2 (Hid b Hb)), <- (proj2 (Hid c Hc')), <- Hr.
  rewrite <- !Has by done. by rewrite E.
Qed.

(** X3.  In every model of the asserted axioms the table is a Latin square:
    in the row of [a] and in the column of [a], each value [c] of [0, n)
    stands at exactly one position. *)
Theorem group_model_is_latin_square
    (n : Z) (m : model) (s : solver) (a c : Z) :
  satisfies m (add_group_axioms n s) →
  0 ≤ a < n → 0 ≤ c < n →
  (∃ b, 0 ≤ b < n ∧ op m a b = c ∧
        ∀ b', 0 ≤ b' < n → op m a b' = c → b' = b) ∧
  (∃ b, 0 ≤ b < n ∧ op m b a = c ∧
        ∀ b', 0 ≤ b' < n → op m b' a = c → b' = b).
Proof.
  intros Hs Ha Hc'.
  destruct (group_model n m s Hs) as ([Hc He] & Hid & Has & Hinv).
  destruct (Hinv a Ha) as (a' & Ha' & Hr & Hl).
  split.
  - exists (op m a' c). split; [by apply Hc|]. split.
    + rewrite <- Has by done. rewrite Hr. by apply Hid.
    + intros b' Hb' E. apply (group_cancel_l n m s a); [done..| |].
      * by apply Hc.
      * rewrite E, <- Has by done. rewrite Hr. symmetry. by apply Hid.
  - exists (op m c a'). split; [by apply Hc|]. split.
    + rewrite Has by done. rewrite Hl. by apply Hid.
    + intros b' Hb' E. apply (group_cancel_r n m s a); [done..| |].
      * by apply Hc.
      * rewrite E, Has by done. rewrite Hl. symmetry. by apply Hid.
Qed.

Lemma group_model_is_latin_square_cyclic3 :
  (∃ b, 0 ≤ b < 3 ∧ op (Examples.cyclic 3) 2 b = 1 ∧
        ∀ b', 0 ≤ b' < 3 → op (Examples.cyclic 3) 2 b' = 1 → b' = b) ∧
  (∃ b, 0 ≤ b < 3 ∧ op (Examples.cyclic 3) b 2 = 1 ∧
        ∀ b', 0 ≤ b' < 3 → op (Examples.cyclic 3) b' 2 = 1 → b' = b).
Proof.
  apply (group_model_is_latin_square 3 (Examples.cyclic 3) [] 2 1).
  - apply satisfies_forallb. vm_compute. reflexivity.
  - lia.
  - lia.
Defined.

(** X4.  In a model of the asserted axioms the value of [identity] is the
    only element that fixes anything: [x * a = a] or [a * x = a] for some
    [a] forces [x] to be the identity. *)
Theorem group_identity_is_unique
    (n : Z) (m : model) (s : solver) (x a : Z) :
  satisfies m (add_group_axioms n s) →
  0 ≤ x < n → 0 ≤ a < n →
  op m x a = a ∨ op m a x = a → x = ident m.
Proof.
  intros Hs Hx Ha E.
  destruct (group_model n m s Hs) as ([Hc He] & Hid & _).
  destruct E as [E|E].
  - apply (group_cancel_r n m s a); [done..|].
    rewrite E. symmetry. by apply Hid.
  - apply (group_cancel_l n m s a); [done..|].
    rewrite E. symmetry. by apply Hid.
Qed.

Lemma group_identity_is_unique_cyclic3 : 0 = ident (Examples.cyclic 3).
Proof.
  apply (group_identity_is_unique 3 (Examples.cyclic 3) [] 0 2).
  - apply satisfies_forallb. vm_compute. reflexivity.
  - lia.
  - lia.
  - left. reflexivity.
Defined.

Lemma display_model_all_pass (n : Z) (m : model) (s : solver) :
  in_int n → satisfies m (add_group_axioms n s) →
  display_model n m = Some (Verdicts true true true).
Proof.
  intros Hn Hs.
  destruct (group_model n m s Hs) as (Hc & Hid & Has & Hinv).
  unfold display_model. change (eval_term m identity) with (ident m).
  rewrite (get_numeral_int_small n) by (done || apply Hc).
  change (verify_group n m (ident m) = Some (Verdicts true true true)).
  destruct (verify_group_closed n m Hn Hc)
    as (i & a & v & _ & _ & _ & _ & -> & Hi & Ha & Hv).
  apply Hi in Hid. apply Ha in Has. apply Hv in Hinv. by subst.
Qed.

(** X5.  With a solver whose SAT answers carry a model of what was
    asserted, a run of the group finder makes no lookup outside a table, and
    when it displays a model all three verdicts are PASS. *)
Theorem group_run_verdicts (check : solver → check_result) (n : Z) :
  in_int n →
  (∀ m, check (add_group_axioms n []) = sat m →
        satisfies m (add_group_axioms n [])) →
  run check n = Some (SAT_displayed (Verdicts true true true)) ∨
  run check n = Some UNSAT_reported ∨
  run check n = Some UNKNOWN_reported.
Proof.
  intros Hn Hsound. unfold run.
  destruct (check (add_group_axioms n [])) as [|m|] eqn:E; [by auto| |by auto].
  left. by rewrite (display_model_all_pass n m []); [|done|apply Hsound].
Qed.

Lemma group_run_verdicts_cyclic3 :
  run (λ _, sat (Examples.cyclic 3)) 3
  = Some (SAT_displayed (Verdicts true true true)) ∨
  run (λ _, sat (Examples.cyclic 3)) 3 = Some UNSAT_reported ∨
  run (λ _, sat (Examples.cyclic 3)) 3 = Some UNKNOWN_reported.
Proof.
  apply (group_run_verdicts (λ _, sat (Examples.cyclic 3)) 3).
  - unfold in_int, INT_MIN, INT_MAX. lia.
  - intros m [= <-]. apply satisfies_forallb. vm_compute. reflexivity.
Defined.

(** X6.  On any table with entries and identity in [0, n), whether it is a
    group or not, each verdict of [verify_group] is PASS exactly when the
    table has the property the verdict is named after. *)
Theorem verify_group_decides (n : Z) (m : model) :
  in_int n → closed n m →
  ∃ v, verify_group n m (ident m) = Some v ∧
       (identity_ok v = true ↔ two_sided_identity n m) ∧
       (assoc_ok v = true ↔ associative n m) ∧
       (inv_ok v = true ↔ two_sided_inverses n m).
Proof.
  intros Hn Hc.
  destruct (verify_group_closed n m Hn Hc)
    as (i & a & v & _ & _ & _ & _ & Hg & Hi & Ha & Hv).
  by exists (Verdicts i a v).
Qed.

Lemma verify_group_decides_cyclic2 :
  ∃ v, verify_group 2 Examples.cyclic2 (ident Examples.cyclic2) = Some v ∧
       (identity_ok v = true ↔ two_sided_identity 2 Examples.cyclic2) ∧
       (assoc_ok v = true ↔ associative 2 Examples.cyclic2) ∧
       (inv_ok v = true ↔ two_sided_inverses 2 Examples.cyclic2).
Proof.
  apply (verify_group_decides 2 Examples.cyclic2).
  - unfold in_int, INT_MIN, INT_MAX. lia.
  - split.
    + intros i j Hi Hj. apply (Z.mod_pos_bound (i + j) 2). lia.
    + unfold ident. simpl. lia.
Defined.

(** X7.  [verify_group] does not check the identity value it is given: with
    [e] outside [0, n) the first lookup of the identity check, [table[e][0]],
    already leaves the table. *)
Theorem verify_group_identity_out_of_range (n : Z) (m : model) (e : Z) :
  1 ≤ n → in_int n →
  (∀ i j, 0 ≤ i < n → 0 ≤ j < n → 0 ≤ op m i j < n) →
  ¬ (0 ≤ e < n) →
  cell (table_of n m) e 0 = None ∧
  check_identity n (table_of n m) e = None ∧
  verify_group n m e = None.
Proof.
  intros H1 Hn Hc He.
  assert (cell (table_of n m) e 0 = None) as Hcell.
  { unfold cell. assert (at_ (table_of n m) e = None) as ->; [|done].
    unfold at_. destruct (decide (0 ≤ e)) as [H0|H0].
    - rewrite bool_decide_eq_true_2 by done. apply lookup_ge_None.
      unfold table_of. rewrite length_fmap, length_range. lia.
    - by rewrite bool_decide_eq_false_2. }
  assert (check_identity n (table_of n m) e = None) as Hid.
  { unfold check_identity, range. rewrite seqZ_cons by lia. simpl.
    unfold identity_step. by rewrite Hcell. }
  split; [done|]. split; [done|].
  unfold verify_group. rewrite extract_table_closed by done. simpl.
  by rewrite Hid.
Qed.

Lemma verify_group_identity_out_of_range_cyclic2 :
  cell (table_of 2 Examples.cyclic2) 5 0 = None ∧
  check_identity 2 (table_of 2 Examples.cyclic2) 5 = None ∧
  verify_group 2 Examples.cyclic2 5 = None.
Proof.
  apply (verify_group_identity_out_of_range 2 Examples.cyclic2 5).
  - lia.
  - unfold in_int, INT_MIN, INT_MAX. lia.
  - intros i j Hi Hj. apply (Z.mod_pos_bound (i + j) 2). lia.
  - lia.
Defined.

End GroupMore.

(** ** Bitmask utilities: order, membership, counting and printing *)

Section BitOpsMore.
Import CInt BitOps.

Lemma contains_testbit (mask k : Z) :
  0 ≤ k < 31 → contains mask k = Z.testbit mask k.
Proof.
  intros Hk. unfold contains. rewrite shl1_pow2 by done.
  destruct (Z.testbit mask k) eqn:E.
  - apply negb_true_iff, Z.eqb_neq. intros H0.
    assert (Z.testbit (Z.land mask (2 ^ k)) k = true) as Hb.
    { rewrite Z.land_spec, E, Z.pow2_bits_eqb, Z.eqb_refl by lia. done. }
    rewrite H0, Z.bits_0 in Hb. done.
  - apply negb_false_iff, Z.eqb_eq, Z.bits_inj'. intros i Hi.
    rewrite Z.land_spec, Z.bits_0, Z.pow2_bits_eqb by lia.
    destruct (Z.eqb_spec k i) as [->|_]; [by rewrite E|apply andb_false_r].
Qed.

Lemma testbit_high (a k : Z) :
  0 ≤ a < 2 ^ 31 → 31 ≤ k → Z.testbit a k = false.
Proof.
  intros Ha Hk. rewrite <- (Z.mod_small a (2 ^ 31)) by done.
  apply Z.mod_pow2_bits_high. lia.
Qed.

Lemma is_subset_testbit (a b : Z) :
  is_subset a b = true ↔
  ∀ k, 0 ≤ k → Z.testbit a k = true → Z.testbit b k = true.
Proof.
  unfold is_subset. rewrite Z.eqb_eq. split.
  - intros H k Hk Ha. rewrite <- H, Z.land_spec in Ha.
    by apply andb_true_iff in Ha as [_ ?].
  - intros H. apply Z.bits_inj'. intros k Hk. rewrite Z.land_spec.
    specialize (H k Hk). destruct (Z.testbit a k); [by rewrite H|done].
Qed.

Lemma is_subset_trans (a b c : Z) :
  is_subset a b = true → is_subset b c = true → is_subset a c = true.
Proof. rewrite !is_subset_testbit. intros H1 H2 k Hk Ha. auto. Qed.

(** X8.  [is_subset] orders the masks: besides being reflexive it is
    transitive, and two masks that contain each other are equal. *)
Theorem is_subset_partial_order (a b c : Z) :
  is_subset a b = true →
  (is_subset b c = true → is_subset a c = true) ∧
  (is_subset b a = true → a = b).
Proof.
  intros Hab. split.
  - by apply is_subset_trans.
  - revert Hab. unfold is_subset.
    rewrite !Z.eqb_eq, (Z.land_comm b a). congruence.
Qed.

Lemma is_subset_partial_order_1_3_7 :
  (is_subset 3 7 = true → is_subset 1 7 = true) ∧
  (is_subset 3 1 = true → 1 = 3).
Proof. apply (is_subset_partial_order 1 3 7). reflexivity. Defined.

(** X9.  Union is the least upper bound and intersection the greatest lower
    bound for [is_subset]: a union is inside [c] exactly when both parts
    are, and [c] is inside an intersection exactly when it is inside both
    parts. *)
Theorem union_intersection_bounds (a b c : Z) :
  is_subset (set_union a b) c = is_subset a c && is_subset b c ∧
  is_subset c (set_intersection a b) = is_subset c a && is_subset c b.
Proof.
  split; apply eq_true_iff_eq; rewrite andb_true_iff, !is_subset_testbit;
    unfold set_union, set_intersection.
  - setoid_rewrite Z.lor_spec. setoid_rewrite orb_true_iff. split.
    + intros H. split; intros k Hk Hx; apply H; auto.
    + intros [H1 H2] k Hk [Hx|Hx]; auto.
  - setoid_rewrite Z.land_spec. setoid_rewrite andb_true_iff. split.
    + intros H. split; intros k Hk Hx; by apply H.
    + intros [H1 H2] k Hk Hx. split; auto.
Qed.

(** X10.  Membership follows the set operations: an element is in a union
    when it is in either part, in an intersection when it is in both, and in
    the complement with respect to a universe of size [n] when it is below
    [n] and not in the mask; elements from [n] on are left as they are. *)
Theorem contains_set_operations (a b n k : Z) :
  0 ≤ n < 31 → 0 ≤ k < 31 →
  contains (set_union a b) k = contains a k || contains b k ∧
  contains (set_intersection a b) k = contains a k && contains b k ∧
  contains (set_complement a n) k
  = (if bool_decide (k < n) then negb (contains a k) else contains a k).
Proof.
  intros Hn Hk. rewrite !contains_testbit by done.
  unfold set_union, set_intersection, set_complement.
  rewrite Z.lor_spec, Z.land_spec, Z.lxor_spec, full_mask by done.
  split; [done|]. split; [done|].
  change (2 ^ n - 1) with (Z.pred (2 ^ n)). rewrite <- Z.ones_equiv.
  case_bool_decide.
  - rewrite Z.ones_spec_low by lia. done.
  - rewrite Z.ones_spec_high by lia. done.
Qed.

Lemma contains_set_operations_example :
  contains (set_union 5 2) 1 = contains 5 1 || contains 2 1 ∧
  contains (set_intersection 5 2) 1 = contains 5 1 && contains 2 1 ∧
  contains (set_complement 5 3) 1
  = (if bool_decide (1 < 3) then negb (contains 5 1) else contains 5 1).
Proof. apply (contains_set_operations 5 2 3 1); lia. Defined.

End BitOpsMore.

Section BitOpsCount.
Import CInt BitOps.

Lemma length_filter_ext {A} (P Q : A → Prop)
    `{∀ x, Decision (P x), ∀ x, Decision (Q x)} (l : list A) :
  Forall (λ x, P x ↔ Q x) l → length (filter P l) = length (filter Q l).
Proof.
  induction 1 as [|x l Hx _ IH]; [done|].
  rewrite !filter_cons. repeat case_decide; simpl; try lia; tauto.
Qed.

Lemma length_filter_shift (P Q : Z → Prop)
    `{∀ x, Decision (P x), ∀ x, Decision (Q x)} (l : list Z) :
  Forall (λ i, P (1 + i) ↔ Q i) l →
  length (filter P (Z.add 1 <$> l)) = length (filter Q l).
Proof.
  induction 1 as [|x l Hx _ IH]; [done|]. rewrite fmap_cons.
  destruct (decide (Q x)) as [Hq|Hq].
  - rewrite !filter_cons_True by tauto. simpl. by rewrite IH.
  - rewrite !filter_cons_False by tauto. done.
Qed.

(** The set bits of [mask] below [k], counted. *)
Lemma count_bits_step (mask : Z) (k : nat) :
  Z.of_nat (length (filter (λ i, Z.testbit mask i = true)
                           (seqZ 0 (Z.of_nat (S k)))))
  = Z.land mask 1
    + Z.of_nat (length (filter (λ i, Z.testbit (Z.shiftr mask 1) i = true)
                               (seqZ 0 (Z.of_nat k)))).
Proof.
  rewrite seqZ_cons by lia.
  replace (Z.pred (Z.of_nat (S k))) with (Z.of_nat k) by lia.
  change (Z.succ 0) with (1 + 0). rewrite <- fmap_add_seqZ.
  assert (Z.land mask 1 = Z.b2z (Z.testbit mask 0)) as ->.
  { change 1 with (Z.ones 1). rewrite Z.land_ones by lia.
    symmetry. apply Z.bit0_mod. }
  assert (length (filter (λ i, Z.testbit mask i = true)
                         (Z.add 1 <$> seqZ 0 (Z.of_nat k)))
          = length (filter (λ i, Z.testbit (Z.shiftr mask 1) i = true)
                           (seqZ 0 (Z.of_nat k)))) as Hshift.
  { apply length_filter_shift, Forall_seqZ. intros i Hi.
    rewrite Z.shiftr_spec by lia. by rewrite (Z.add_comm i 1). }
  destruct (Z.testbit mask 0) eqn:E.
  - rewrite filter_cons_True by done. simpl length. rewrite Hshift.
    simpl Z.b2z. lia.
  - rewrite filter_cons_False by (rewrite E; done). rewrite Hshift.
    simpl. lia.
Qed.

Lemma cardinality_loop_count (k fuel : nat) (mask count : Z) :
  0 ≤ mask < 2 ^ Z.of_nat k → (k ≤ fuel)%nat →
  0 ≤ count → count + Z.of_nat k ≤ INT_MAX →
  cardinality_loop fuel mask count
  = Some (count + Z.of_nat (length (filter (λ i, Z.testbit mask i = true)
                                      (seqZ 0 (Z.of_nat k))))).
Proof.
  revert fuel mask count.
  induction k as [|k IH]; intros fuel mask count Hm Hf Hc Hk.
  - assert (mask = 0) as -> by (simpl in Hm; lia).
    destruct fuel; simpl; f_equal; lia.
  - rewrite count_bits_step.
    assert (0 ≤ Z.land mask 1 ≤ 1) as Hb.
    { change (Z.land mask 1) with (Z.land mask (Z.ones 1)).
      rewrite Z.land_ones by lia. change (2 ^ 1) with 2.
      pose proof (Z.mod_pos_bound mask 2). lia. }
    assert (0 ≤ Z.shiftr mask 1 < 2 ^ Z.of_nat k) as Hs.
    { rewrite Z.shiftr_div_pow2 by lia. change (2 ^ 1) with 2.
      rewrite Nat2Z.inj_succ, Z.pow_succ_r in Hm by lia.
      split; [apply Z.div_pos; lia|].
      apply Z.div_lt_upper_bound; lia. }
    pose proof (Z.pow_pos_nonneg 2 (Z.of_nat k)) as Hpow.
    destruct fuel as [|fuel]; [lia|].
    destruct (Z.eqb_spec mask 0) as [->|Hne].
    + pose proof (IH fuel 0 count) as H.
      assert (cardinality_loop fuel 0 count = Some count) as E0
        by (by destruct fuel).
      rewrite E0 in H.
      change (cardinality_loop (S fuel) 0 count) with (Some count).
      change (Z.land 0 1) with 0. change (Z.shiftr 0 1) with 0.
      rewrite Z.add_0_l. apply H; lia.
    + simpl. rewrite (proj2 (Z.eqb_neq mask 0) Hne).
      rewrite wrap_in_int by (unfold in_int, INT_MIN, INT_MAX in *; lia).
      rewrite IH by (unfold INT_MAX in *; lia). f_equal. lia.
Qed.

(** On a non-negative [int] the loop ends within 31 rounds and returns the
    number of elements [contains] finds. *)
Lemma cardinality_members (mask : Z) (fuel : nat) :
  0 ≤ mask ≤ INT_MAX → (31 ≤ fuel)%nat →
  cardinality fuel mask = Some (Z.of_nat (length (members mask 31))).
Proof.
  intros Hm Hf. unfold cardinality.
  rewrite (cardinality_loop_count 31) by (unfold INT_MAX in *; simpl; lia).
  f_equal. rewrite Z.add_0_l. f_equal. unfold members, range.
  change (Z.of_nat 31) with 31.
  apply length_filter_ext, Forall_seqZ. intros k Hk.
  rewrite contains_testbit by lia. done.
Qed.

(** On a negative mask the loop never ends. *)
Lemma cardinality_loop_negative (fuel : nat) (mask count : Z) :
  mask < 0 → cardinality_loop fuel mask count = None.
Proof.
  revert mask count. induction fuel as [|fuel IH]; intros mask count Hm.
  - simpl. by rewrite (proj2 (Z.eqb_neq mask 0)) by lia.
  - simpl. rewrite (proj2 (Z.eqb_neq mask 0)) by lia.
    apply IH. by apply Z.shiftr_neg.
Qed.

(** X11.  On a non-negative [int] the popcount loop ends within 31 rounds
    and returns the number of elements below 31 that [contains] finds; on a
    negative mask the arithmetic shift never reaches 0 and the loop does not
    end, whatever the fuel. *)
Theorem cardinality_counts_members (mask : Z) (fuel : nat) :
  in_int mask → (31 ≤ fuel)%nat ∨ mask < 0 →
  cardinality fuel mask
  = if bool_decide (0 ≤ mask)
    then Some (Z.of_nat (length (members mask 31)))
    else None.
Proof.
  intros [_ Hm] Hf. case_bool_decide.
  - apply cardinality_members; [done|]. destruct Hf; [done|lia].
  - apply cardinality_loop_negative. lia.
Qed.

Lemma cardinality_counts_members_13 :
  cardinality 31 13
  = if bool_decide (0 ≤ 13)
    then Some (Z.of_nat (length (members 13 31)))
    else None.
Proof.
  apply (cardinality_counts_members 13 31).
  - unfold in_int, INT_MIN, INT_MAX. lia.
  - left. lia.
Defined.

Example cardinality_negative_mask : cardinality 40 (-2) = None.
Proof. reflexivity. Qed.

Lemma length_filter_or_and {A} (P Q : A → Prop)
    `{∀ x, Decision (P x), ∀ x, Decision (Q x)} (l : list A) :
  (length (filter (λ x, P x ∨ Q x) l) + length (filter (λ x, P x ∧ Q x) l)
   = length (filter P l) + length (filter Q l))%nat.
Proof.
  induction l as [|x l IH]; [done|].
  destruct (decide (P x)), (decide (Q x));
    first [rewrite (filter_cons_True (λ x, P x ∨ Q x)) by tauto
          |rewrite (filter_cons_False (λ x, P x ∨ Q x)) by tauto];
    first [rewrite (filter_cons_True (λ x, P x ∧ Q x)) by tauto
          |rewrite (filter_cons_False (λ x, P x ∧ Q x)) by tauto];
    first [rewrite (filter_cons_True P) by tauto
          |rewrite (filter_cons_False P) by tauto];
    first [rewrite (filter_cons_True Q) by tauto
          |rewrite (filter_cons_False Q) by tauto];
    simpl; lia.
Qed.

Lemma below_of_bits (x : Z) :
  0 ≤ x → (∀ k, 31 ≤ k → Z.testbit x k = false) → x < 2 ^ 31.
Proof.
  intros H0 Hb.
  assert (x = x mod 2 ^ 31) as ->.
  { apply Z.bits_inj'. intros k Hk. destruct (Z.lt_ge_cases k 31).
    - by rewrite Z.mod_pow2_bits_low.
    - rewrite Z.mod_pow2_bits_high by lia. by apply Hb. }
  apply Z.mod_pos_bound. lia.
Qed.

Lemma lor_land_nonneg_int (a b : Z) :
  0 ≤ a ≤ INT_MAX → 0 ≤ b ≤ INT_MAX →
  0 ≤ Z.lor a b ≤ INT_MAX ∧ 0 ≤ Z.land a b ≤ INT_MAX.
Proof.
  unfold INT_MAX. intros Ha Hb.
  assert (0 ≤ Z.lor a b) by (apply Z.lor_nonneg; lia).
  assert (0 ≤ Z.land a b) by (apply Z.land_nonneg; lia).
  assert (Z.lor a b < 2 ^ 31).
  { apply below_of_bits; [done|]. intros k Hk.
    rewrite Z.lor_spec, !testbit_high by lia. done. }
  assert (Z.land a b < 2 ^ 31).
  { apply below_of_bits; [done|]. intros k Hk.
    rewrite Z.land_spec, !testbit_high by lia. done. }
  lia.
Qed.

(** X12.  Counting is additive over union and intersection: for
    non-negative masks, [|a ∪ b| + |a ∩ b| = |a| + |b|]. *)
Theorem cardinality_union_intersection (a b : Z) (fuel : nat) :
  0 ≤ a ≤ INT_MAX → 0 ≤ b ≤ INT_MAX → (31 ≤ fuel)%nat →
  ∃ ca cb cu ci,
    cardinality fuel a = Some ca ∧ cardinality fuel b = Some cb ∧
    cardinality fuel (set_union a b) = Some cu ∧
    cardinality fuel (set_intersection a b) = Some ci ∧
    cu + ci = ca + cb.
Proof.
  intros Ha Hb Hf.
  destruct (lor_land_nonneg_int a b Ha Hb) as [Hu Hi].
  eexists _, _, _, _.
  split; [by apply cardinality_members|].
  split; [by apply cardinality_members|].
  split; [by apply cardinality_members|].
  split; [by apply cardinality_members|].
  rewrite <- !Nat2Z.inj_add. f_equal. unfold members.
  rewrite <- (length_filter_or_and (λ k, contains a k = true)
                                   (λ k, contains b k = true) (range 31)).
  f_equal; apply length_filter_ext, Forall_range; intros k Hk.
  - destruct (contains_set_operations a b 0 k) as (-> & _); [lia..|].
    apply orb_true_iff.
  - destruct (contains_set_operations a b 0 k) as (_ & -> & _); [lia..|].
    apply andb_true_iff.
Qed.

Lemma cardinality_union_intersection_5_3 :
  ∃ ca cb cu ci,
    cardinality 31 5 = Some ca ∧ cardinality 31 3 = Some cb ∧
    cardinality 31 (set_union 5 3) = Some cu ∧
    cardinality 31 (set_intersection 5 3) = Some ci ∧
    cu + ci = ca + cb.
Proof.
  apply (cardinality_union_intersection 5 3 31).
  - unfold INT_MAX. lia.
  - unfold INT_MAX. lia.
  - lia.
Defined.

(** X13.  For a non-negative mask [a], [is_subset(a, b)] says exactly that
    every element [contains] finds in [a] it also finds in [b]. *)
Theorem is_subset_by_members (a b : Z) :
  0 ≤ a ≤ INT_MAX →
  is_subset a b = true ↔
  ∀ k, 0 ≤ k < 31 → contains a k = true → contains b k = true.
Proof.
  intros Ha. rewrite is_subset_testbit. split.
  - intros H k Hk. rewrite !contains_testbit by done. apply H. lia.
  - intros H k Hk Hak. destruct (Z.lt_ge_cases k 31) as [Hlt|Hge].
    + rewrite <- !contains_testbit by lia. apply H; [lia|].
      by rewrite contains_testbit by lia.
    + rewrite testbit_high in Hak by (unfold INT_MAX in Ha; lia). done.
Qed.

Lemma is_subset_by_members_5_7 :
  is_subset 5 7 = true ↔
  ∀ k, 0 ≤ k < 31 → contains 5 k = true → contains 7 k = true.
Proof. apply (is_subset_by_members 5 7). unfold INT_MAX. lia. Defined.

Lemma length_filter_mono {A} (P Q : A → Prop)
    `{∀ x, Decision (P x), ∀ x, Decision (Q x)} (l : list A) :
  Forall (λ x, P x → Q x) l →
  (length (filter P l) ≤ length (filter Q l))%nat.
Proof.
  induction 1 as [|x l Hx _ IH]; [done|].
  destruct (decide (P x)), (decide (Q x));
    first [rewrite (filter_cons_True P) by tauto
          |rewrite (filter_cons_False P) by tauto];
    first [rewrite (filter_cons_True Q) by tauto
          |rewrite (filter_cons_False Q) by tauto];
    simpl; try lia; tauto.
Qed.

(** X14.  A subset has no more elements than its superset, and no
    non-negative mask has more than 31. *)
Theorem cardinality_monotone (a b : Z) (fuel : nat) :
  0 ≤ a ≤ INT_MAX → 0 ≤ b ≤ INT_MAX → (31 ≤ fuel)%nat →
  is_subset a b = true →
  ∃ ca cb, cardinality fuel a = Some ca ∧ cardinality fuel b = Some cb ∧
           0 ≤ ca ≤ cb ∧ cb ≤ 31.
Proof.
  intros Ha Hb Hf Hs. eexists _, _.
  split; [by apply cardinality_members|].
  split; [by apply cardinality_members|].
  pose proof (length_filter (λ k, contains b k = true) (range 31)) as Hle.
  rewrite length_range in Hle. unfold members.
  assert (length (filter (λ k, contains a k = true) (range 31))
          ≤ length (filter (λ k, contains b k = true) (range 31)))%nat.
  { apply length_filter_mono, Forall_range. intros k Hk.
    by apply (is_subset_by_members a b Ha). }
  lia.
Qed.

Lemma cardinality_monotone_5_7 :
  ∃ ca cb, cardinality 31 5 = Some ca ∧ cardinality 31 7 = Some cb ∧
           0 ≤ ca ≤ cb ∧ cb ≤ 31.
Proof.
  apply (cardinality_monotone 5 7 31).
  - unfold INT_MAX. lia.
  - unfold INT_MAX. lia.
  - lia.
  - reflexivity.
Defined.

Lemma in_universe (mask n : Z) :
  0 ≤ n < 31 → is_subset mask (2 ^ n - 1) = true → 0 ≤ mask < 2 ^ n.
Proof.
  intros Hn Hs. unfold is_subset in Hs. apply Z.eqb_eq in Hs.
  change (2 ^ n - 1) with (Z.pred (2 ^ n)) in Hs.
  rewrite <- Z.ones_equiv, Z.land_ones in Hs by lia.
  rewrite <- Hs. apply Z.mod_pos_bound.
  pose proof (pow2_below_31 n Hn). lia.
Qed.

(** X15.  Inside a universe of size [n], a mask and its complement split
    the universe: the complement stays inside the universe, the two are
    disjoint, their union is the full mask, and their cardinalities add up
    to [n]. *)
Theorem complement_partitions_universe (mask n : Z) (fuel : nat) :
  0 ≤ n < 31 → is_subset mask (2 ^ n - 1) = true → (31 ≤ fuel)%nat →
  is_subset (set_complement mask n) (2 ^ n - 1) = true ∧
  set_intersection mask (set_complement mask n) = 0 ∧
  set_union mask (set_complement mask n) = 2 ^ n - 1 ∧
  ∃ c c', cardinality fuel mask = Some c ∧
          cardinality fuel (set_complement mask n) = Some c' ∧
          c + c' = n.
Proof.
  intros Hn Hs Hf.
  pose proof (in_universe mask n Hn Hs) as Hm.
  pose proof (pow2_below_31 n Hn) as Hp.
  assert (∀ k, 0 ≤ k → Z.testbit (set_complement mask n) k
                       = xorb (Z.testbit (Z.ones n) k) (Z.testbit mask k))
    as Hbit.
  { intros k Hk. unfold set_complement.
    rewrite full_mask by done. change (2 ^ n - 1) with (Z.pred (2 ^ n)).
    by rewrite <- Z.ones_equiv, Z.lxor_spec. }
  assert (∀ k, n ≤ k → Z.testbit mask k = false) as Hhigh.
  { intros k Hk. rewrite <- (Z.mod_small mask (2 ^ n)) by done.
    apply Z.mod_pow2_bits_high. lia. }
  assert (set_intersection mask (set_complement mask n) = 0) as Hi.
  { apply Z.bits_inj'. intros k Hk. unfold set_intersection.
    rewrite Z.land_spec, Hbit, Z.bits_0 by done.
    destruct (Z.lt_ge_cases k n).
    - rewrite Z.ones_spec_low by lia. by destruct (Z.testbit mask k).
    - by rewrite Hhigh. }
  assert (set_union mask (set_complement mask n) = 2 ^ n - 1) as Hu.
  { change (2 ^ n - 1) with (Z.pred (2 ^ n)). rewrite <- Z.ones_equiv.
    apply Z.bits_inj'. intros k Hk. unfold set_union.
    rewrite Z.lor_spec, Hbit by done.
    destruct (Z.lt_ge_cases k n).
    - rewrite Z.ones_spec_low by lia. by destruct (Z.testbit mask k).
    - rewrite Hhigh, Z.ones_spec_high by lia. done. }
  assert (is_subset (set_complement mask n) (2 ^ n - 1) = true) as Hc.
  { apply is_subset_testbit. intros k Hk.
    change (2 ^ n - 1) with (Z.pred (2 ^ n)). rewrite <- Z.ones_equiv.
    rewrite Hbit by done. destruct (Z.lt_ge_cases k n).
    - by rewrite Z.ones_spec_low by lia.
    - rewrite Hhigh, Z.ones_spec_high by lia. done. }
  split; [done|]. split; [done|]. split; [done|].
  pose proof (in_universe _ n Hn Hc) as Hm'.
  destruct (cardinality_union_intersection mask (set_complement mask n) fuel)
    as (ca & cb & cu & ci & Ea & Eb & Eu & Ei & Esum);
    [unfold INT_MAX; lia..|done|].
  exists ca, cb. split; [done|]. split; [done|].
  rewrite Hu in Eu. rewrite Hi in Ei.
  assert (cu = n) as ->.
  { unfold cardinality in Eu. rewrite <- (Z2Nat.id n) in Eu at 1 by lia.
    rewrite cardinality_loop_ones in Eu by (unfold INT_MAX; lia).
    injection Eu as <-. lia. }
  assert (ci = 0) as ->.
  { destruct fuel; simpl in Ei; by injection Ei as <-. }
  lia.
Qed.

Lemma complement_partitions_universe_5_of_3 :
  is_subset (set_complement 5 3) (2 ^ 3 - 1) = true ∧
  set_intersection 5 (set_complement 5 3) = 0 ∧
  set_union 5 (set_complement 5 3) = 2 ^ 3 - 1 ∧
  ∃ c c', cardinality 31 5 = Some c ∧
          cardinality 31 (set_complement 5 3) = Some c' ∧
          c + c' = 3.
Proof.
  apply (complement_partitions_universe 5 3 31).
  - lia.
  - reflexivity.
  - lia.
Defined.

Lemma append_assoc (s t u : string) : (s +:+ t) +:+ u = s +:+ t +:+ u.
Proof.
  induction s as [|c s IH]; [done|].
  change (String c ((s +:+ t) +:+ u) = String c (s +:+ t +:+ u)).
  by rewrite IH.
Qed.

Lemma append_empty_r (s : string) : s +:+ "" = s.
Proof.
  induction s as [|c s IH]; [done|].
  change (String c (s +:+ "") = String c s). by rewrite IH.
Qed.

Lemma to_string_loop_rest (mask : Z) (acc : string) (l : list Z) :
  (foldl (to_string_step mask) (acc, false) l).1
  = acc +:+ foldr (λ y rest, "," +:+ y +:+ rest) ""
              (pretty <$> filter (λ k, contains mask k = true) l).
Proof.
  revert acc. induction l as [|x l IH]; intros acc.
  - simpl. by rewrite append_empty_r.
  - simpl foldl. unfold to_string_step at 2.
    destruct (contains mask x) eqn:E.
    + rewrite filter_cons_True by done. simpl negb. cbv iota. simpl fst.
      rewrite IH, fmap_cons. simpl foldr. by rewrite !append_assoc.
    + rewrite filter_cons_False by (rewrite E; done). apply IH.
Qed.

Lemma to_string_loop_first (mask : Z) (acc : string) (l : list Z) :
  (foldl (to_string_step mask) (acc, true) l).1
  = acc +:+ comma_separated
              (pretty <$> filter (λ k, contains mask k = true) l).
Proof.
  revert acc. induction l as [|x l IH]; intros acc.
  - simpl. by rewrite append_empty_r.
  - simpl foldl. unfold to_string_step at 2.
    destruct (contains mask x) eqn:E.
    + rewrite filter_cons_True by done. simpl negb. cbv iota. simpl fst.
      rewrite to_string_loop_rest, fmap_cons. unfold comma_separated.
      by rewrite !append_assoc.
    + rewrite filter_cons_False by (rewrite E; done). apply IH.
Qed.

(** X16.  [to_string] writes an opening brace, the decimal indices of the
    elements of the mask below [n] in increasing order with one comma
    between neighbours (none before the first or after the last), and a
    closing brace; the empty set is printed as a pair of braces. *)
Theorem to_string_lists_members (mask n : Z) :
  0 ≤ n ≤ 31 →
  to_string mask n
  = "{" +:+ comma_separated (pretty <$> members mask n) +:+ "}".
Proof.
  intros _. unfold to_string, members.
  rewrite to_string_loop_first. by rewrite append_assoc.
Qed.

Lemma to_string_lists_members_13_4 :
  to_string 13 4
  = "{" +:+ comma_separated (pretty <$> members 13 4) +:+ "}".
Proof. apply (to_string_lists_members 13 4). lia. Defined.

Example to_string_examples :
  to_string 13 4 = "{0,2,3}" ∧ to_string 0 3 = "{}" ∧ to_string 13 2 = "{0}".
Proof. by vm_compute. Qed.

End BitOpsCount.

(** ** The preorder family: meaning of the constraints, verifiers, runs *)

Section PreorderMore.
Import CInt Z3 BitOps Relation.

Lemma implb_and_true (a b c : bool) :
  implb (a && b) c = true ↔ (a = true → b = true → c = true).
Proof. destruct a, b, c; simpl; intuition congruence. Qed.

Lemma satisfies_reflexive_list (ps : Z) (m : model) :
  satisfies m (i ← range ps; [bool_const (R_ i i)]) ↔ reflexive ps m.
Proof.
  unfold satisfies, reflexive, rel. rewrite Forall_bind, Forall_range.
  by setoid_rewrite Forall_singleton.
Qed.

Lemma satisfies_transitive_list (ps : Z) (m : model) :
  satisfies m (i ← range ps; j ← range ps; k ← range ps;
               [implies (and_ (bool_const (R_ i j)) (bool_const (R_ j k)))
                        (bool_const (R_ i k))])
  ↔ transitive ps m.
Proof.
  unfold satisfies, transitive, rel. rewrite Forall_bind, Forall_range.
  repeat (setoid_rewrite Forall_bind; setoid_rewrite Forall_range).
  setoid_rewrite Forall_singleton. simpl.
  setoid_rewrite implb_and_true. split.
  - intros H i j k Hi Hj Hk. by apply H.
  - intros H i Hi j Hj k Hk. by apply H.
Qed.

Lemma satisfies_monotone_list (ps : Z) (m : model) :
  satisfies m (i ← range ps; j ← range ps;
               if is_subset i j then [bool_const (R_ i j)] else [])
  ↔ monotone ps m.
Proof.
  unfold satisfies, monotone, rel. rewrite Forall_bind, Forall_range.
  setoid_rewrite Forall_bind. setoid_rewrite Forall_range. split.
  - intros H i j Hi Hj Hs. specialize (H i Hi j Hj). unfold compose in H.
    rewrite Hs, Forall_singleton in H. done.
  - intros H i Hi j Hj. unfold compose.
    destruct (is_subset i j) eqn:Hs; [|constructor].
    apply Forall_singleton. simpl. by apply H.
Qed.

Lemma eval_has_strict_order (n : Z) (m : model) :
  eval m (mk_or (PartialPreorderFinder.has_strict_order n)) = true
  ↔ has_strict_pair (PartialPreorderFinder.powerset_size n) m.
Proof.
  simpl. rewrite <- Is_true_true, existb_True, Exists_exists.
  unfold PartialPreorderFinder.has_strict_order, has_strict_pair, rel. split.
  - intros (p & Hp & Hev).
    apply list_elem_of_bind in Hp as (i & Hp & Hi%elem_of_range).
    apply list_elem_of_bind in Hp as (j & Hp & Hj%elem_of_range).
    case_bool_decide as Hne; [|by apply elem_of_nil in Hp].
    apply list_elem_of_singleton in Hp as ->.
    apply Is_true_true in Hev. simpl in Hev.
    apply andb_true_iff in Hev as [H1 H2%negb_true_iff].
    by exists i, j.
  - intros (i & j & Hi & Hj & Hne & H1 & H2).
    exists (and_ (PartialPreorderFinder.R i j)
                 (not_ (PartialPreorderFinder.R j i))). split.
    + apply list_elem_of_bind. exists i. split; [|by apply elem_of_range].
      apply list_elem_of_bind. exists j. split; [|by apply elem_of_range].
      rewrite bool_decide_eq_true_2 by done. by apply list_elem_of_singleton.
    + apply Is_true_true. simpl. by rewrite H1, H2.
Qed.

Lemma partial_asserted_sem (n : Z) (m : model) :
  satisfies m (PartialPreorderFinder.asserted n) ↔
  reflexive (PartialPreorderFinder.powerset_size n) m ∧
  transitive (PartialPreorderFinder.powerset_size n) m ∧
  monotone (PartialPreorderFinder.powerset_size n) m ∧
  has_strict_pair (PartialPreorderFinder.powerset_size n) m.
Proof.
  unfold PartialPreorderFinder.asserted,
    PartialPreorderFinder.require_nontrivial,
    PartialPreorderFinder.add_monotonicity,
    PartialPreorderFinder.add_preorder_axioms.
  rewrite !satisfies_app.
  rewrite <- satisfies_reflexive_list, <- satisfies_transitive_list,
    <- satisfies_monotone_list, <- eval_has_strict_order.
  unfold satisfies at 1 5. rewrite Forall_nil, Forall_singleton.
  unfold PartialPreorderFinder.reflexivity,
    PartialPreorderFinder.transitivity, PartialPreorderFinder.R.
  tauto.
Qed.

Lemma frame_asserted_sem (n : Z) (m : model) :
  0 ≤ n < 31 →
  ∃ s, FrameFinder.asserted (FrameFinder.mkFrameVariables n) = Some s ∧
       (satisfies m s ↔
        transitive (2 ^ n) m ∧ monotone (2 ^ n) m ∧
        separates_full_from_empty (2 ^ n) m).
Proof.
  intros Hn. destruct (size_mkFrameVariables n Hn) as (Hsz & H1 & Hint).
  unfold FrameFinder.asserted.
  rewrite encode_non_triviality_Some by (rewrite Hsz; done).
  eexists. split; [done|].
  unfold FrameFinder.encode_monotonicity, FrameFinder.encode_transitivity.
  rewrite !satisfies_app, Hsz.
  rewrite <- satisfies_transitive_list, <- satisfies_monotone_list.
  unfold satisfies at 1 4. rewrite Forall_nil, Forall_singleton.
  unfold separates_full_from_empty, rel, FrameFinder.R. simpl.
  rewrite negb_true_iff. tauto.
Qed.

(** X17.  What PartialPreorderFinder asserts holds in a model exactly when
    the relation is reflexive, transitive, contains subset inclusion, and has
    a pair related one way only. *)
Theorem partial_asserted_meaning (n : Z) (m : model) :
  satisfies m (PartialPreorderFinder.asserted n) ↔
  reflexive (PartialPreorderFinder.powerset_size n) m ∧
  transitive (PartialPreorderFinder.powerset_size n) m ∧
  monotone (PartialPreorderFinder.powerset_size n) m ∧
  has_strict_pair (PartialPreorderFinder.powerset_size n) m.
Proof.
  unfold PartialPreorderFinder.asserted,
    PartialPreorderFinder.require_nontrivial,
    PartialPreorderFinder.add_monotonicity,
    PartialPreorderFinder.add_preorder_axioms.
  rewrite !satisfies_app.
  rewrite <- satisfies_reflexive_list, <- satisfies_transitive_list,
    <- satisfies_monotone_list, <- eval_has_strict_order.
  unfold satisfies at 1 5. rewrite Forall_nil, Forall_singleton.
  unfold PartialPreorderFinder.reflexivity,
    PartialPreorderFinder.transitivity, PartialPreorderFinder.R.
  tauto.
Qed.

(** X18.  What the FrameFinder [main] asserts holds in a model exactly when
    the relation is transitive, contains subset inclusion, and does not
    relate the full set to the empty set. *)
Theorem frame_asserted_meaning (n : Z) (m : model) :
  0 ≤ n < 31 →
  ∃ s, FrameFinder.asserted (FrameFinder.mkFrameVariables n) = Some s ∧
       (satisfies m s ↔
        transitive (2 ^ n) m ∧ monotone (2 ^ n) m ∧
        separates_full_from_empty (2 ^ n) m).
Proof.
  intros Hn. destruct (size_mkFrameVariables n Hn) as (Hsz & H1 & Hint).
  unfold FrameFinder.asserted.
  rewrite encode_non_triviality_Some by (rewrite Hsz; done).
  eexists. split; [done|].
  unfold FrameFinder.encode_monotonicity, FrameFinder.encode_transitivity.
  rewrite !satisfies_app, Hsz.
  rewrite <- satisfies_transitive_list, <- satisfies_monotone_list.
  unfold satisfies at 1 4. rewrite Forall_nil, Forall_singleton.
  unfold separates_full_from_empty, rel, FrameFinder.R. simpl.
  rewrite negb_true_iff. tauto.
Qed.

Lemma frame_asserted_meaning_inclusion :
  ∃ s, FrameFinder.asserted (FrameFinder.mkFrameVariables 1) = Some s ∧
       (satisfies Examples.inclusion s ↔
        transitive (2 ^ 1) Examples.inclusion ∧
        monotone (2 ^ 1) Examples.inclusion ∧
        separates_full_from_empty (2 ^ 1) Examples.inclusion).
Proof. apply (frame_asserted_meaning 1 Examples.inclusion). lia. Defined.

Lemma is_subset_full (n i : Z) :
  0 ≤ n < 31 → 0 ≤ i < 2 ^ n → is_subset i (2 ^ n - 1) = true.
Proof.
  intros Hn Hi. unfold is_subset. apply Z.eqb_eq.
  change (2 ^ n - 1) with (Z.pred (2 ^ n)).
  rewrite <- Z.ones_equiv, Z.land_ones by lia. by apply Z.mod_small.
Qed.

Lemma is_subset_empty (j : Z) : is_subset 0 j = true.
Proof. unfold is_subset. by rewrite Z.land_0_l. Qed.

(** Under transitivity and monotonicity the two non-triviality policies
    single out the same relations. *)
Lemma strict_pair_iff_separates (n : Z) (m : model) :
  0 ≤ n < 31 → transitive (2 ^ n) m → monotone (2 ^ n) m →
  has_strict_pair (2 ^ n) m ↔ separates_full_from_empty (2 ^ n) m.
Proof.
  intros Hn Ht Hm. pose proof (pow2_below_31 n Hn) as Hp.
  unfold has_strict_pair, separates_full_from_empty. split.
  - intros (i & j & Hi & Hj & _ & _ & Hji).
    destruct (rel m (2 ^ n - 1) 0) eqn:E; [|done].
    rewrite <- Hji. symmetry.
    apply (Ht j (2 ^ n - 1) i); [lia..| |].
    + apply Hm; [lia..|]. by apply is_subset_full.
    + apply (Ht (2 ^ n - 1) 0 i); [lia..|done|].
      apply Hm; [lia..|]. apply is_subset_empty.
  - intros Hsep. exists 0, (2 ^ n - 1).
    assert (rel m 0 (2 ^ n - 1) = true) as H0.
    { apply Hm; [lia..|]. apply is_subset_empty. }
    split; [lia|]. split; [lia|]. split; [|done].
    intros E. rewrite <- E in Hsep. rewrite <- E in H0. congruence.
Qed.

Lemma monotone_reflexive (ps : Z) (m : model) :
  monotone ps m → reflexive ps m.
Proof. intros Hm i Hi. apply Hm; [done..|]. apply is_subset_refl. Qed.

Lemma non_triviality_policies_agree_aux (n : Z) (m : model) :
  0 ≤ n < 31 →
  satisfies m (PartialPreorderFinder.asserted n) ↔
  ∃ s, FrameFinder.asserted (FrameFinder.mkFrameVariables n) = Some s ∧
       satisfies m s.
Proof.
  intros Hn. rewrite partial_asserted_sem.
  unfold PartialPreorderFinder.powerset_size. rewrite shl1_pow2 by done.
  destruct (frame_asserted_sem n m Hn) as (s & Hs & Hsem). split.
  - intros (_ & Ht & Hm & Hp). exists s. split; [done|].
    apply Hsem. split; [done|]. split; [done|].
    by apply strict_pair_iff_separates.
  - intros (s' & Hs' & Hsat). rewrite Hs in Hs'. injection Hs' as <-.
    apply Hsem in Hsat as (Ht & Hm & Hsep).
    split; [by apply monotone_reflexive|]. split; [done|]. split; [done|].
    by apply strict_pair_iff_separates.
Qed.

(** X19.  The two non-triviality policies admit the same models: next to
    transitivity and monotonicity, asking for some strict pair and asking
    that the full set is not related to the empty set are the same demand,
    so a model satisfies what PartialPreorderFinder asserts exactly when it
    satisfies what the FrameFinder [main] asserts. *)
Theorem non_triviality_policies_agree (n : Z) (m : model) :
  0 ≤ n < 31 →
  (satisfies m (PartialPreorderFinder.asserted n) ↔
   ∃ s, FrameFinder.asserted (FrameFinder.mkFrameVariables n) = Some s ∧
        satisfies m s) ∧
  (transitive (2 ^ n) m → monotone (2 ^ n) m →
   has_strict_pair (2 ^ n) m ↔ separates_full_from_empty (2 ^ n) m).
Proof.
  intros Hn. split; [by apply non_triviality_policies_agree_aux|].
  by apply strict_pair_iff_separates.
Qed.

Lemma non_triviality_policies_agree_inclusion :
  (satisfies Examples.inclusion (PartialPreorderFinder.asserted 1) ↔
   ∃ s, FrameFinder.asserted (FrameFinder.mkFrameVariables 1) = Some s ∧
        satisfies Examples.inclusion s) ∧
  (transitive (2 ^ 1) Examples.inclusion →
   monotone (2 ^ 1) Examples.inclusion →
   has_strict_pair (2 ^ 1) Examples.inclusion
   ↔ separates_full_from_empty (2 ^ 1) Examples.inclusion).
Proof. apply (non_triviality_policies_agree 1 Examples.inclusion). lia. Defined.

Lemma inclusion_is_model (n : Z) :
  1 ≤ n < 31 →
  transitive (2 ^ n) Examples.inclusion ∧
  monotone (2 ^ n) Examples.inclusion ∧
  separates_full_from_empty (2 ^ n) Examples.inclusion.
Proof.
  intros Hn. unfold transitive, monotone, separates_full_from_empty, rel.
  simpl. split; [|split].
  - intros i j k _ _ _. apply is_subset_trans.
  - done.
  - unfold is_subset. rewrite Z.land_0_r. apply Z.eqb_neq.
    assert (2 ^ 1 ≤ 2 ^ n) by (apply Z.pow_le_mono_r; lia).
    change (2 ^ 1) with 2 in *. lia.
Qed.

(** X20.  For a universe size below 31, what either program asserts has a
    model exactly when the universe is not empty: subset inclusion itself is
    a model for [n >= 1], and for [n = 0] there is none. *)
Theorem preorder_asserted_satisfiable_iff (n : Z) :
  0 ≤ n < 31 →
  ((∃ m s, FrameFinder.asserted (FrameFinder.mkFrameVariables n) = Some s ∧
           satisfies m s) ↔ 1 ≤ n) ∧
  ((∃ m, satisfies m (PartialPreorderFinder.asserted n)) ↔ 1 ≤ n).
Proof.
  intros Hn.
  assert ((∃ m s,
             FrameFinder.asserted (FrameFinder.mkFrameVariables n) = Some s ∧
             satisfies m s) ↔ 1 ≤ n) as HF.
  { split.
    - intros (m & s & Hs & Hsat).
      destruct (frame_asserted_sem n m Hn) as (s' & Hs' & Hsem).
      rewrite Hs in Hs'. injection Hs' as <-.
      apply Hsem in Hsat as (_ & Hm & Hsep).
      destruct (Z.eq_dec n 0) as [->|]; [|lia].
      unfold separates_full_from_empty in Hsep.
      change (2 ^ 0 - 1) with 0 in Hsep.
      rewrite (Hm 0 0) in Hsep;
        [done|change (2 ^ 0) with 1; lia..|apply is_subset_refl].
    - intros H1. exists Examples.inclusion.
      destruct (frame_asserted_sem n Examples.inclusion Hn)
        as (s & Hs & Hsem).
      exists s. split; [done|]. apply Hsem. apply inclusion_is_model. lia. }
  split; [done|]. rewrite <- HF. split.
  - intros [m Hm]. exists m. by apply non_triviality_policies_agree_aux.
  - intros (m & s & Hs & Hsat). exists m.
    apply non_triviality_policies_agree_aux; eauto.
Qed.

Lemma preorder_asserted_satisfiable_iff_1 :
  ((∃ m s, FrameFinder.asserted (FrameFinder.mkFrameVariables 1) = Some s ∧
           satisfies m s) ↔ 1 ≤ 1) ∧
  ((∃ m, satisfies m (PartialPreorderFinder.asserted 1)) ↔ 1 ≤ 1).
Proof. apply (preorder_asserted_satisfiable_iff 1). lia. Defined.

Lemma reflexive_flag (ps : Z) (m : model) :
  forallb (λ i, bool_of m (R_ i i)) (range ps) = true ↔ reflexive ps m.
Proof. apply forallb_range. Qed.

Lemma transitive_flag (ps : Z) (m : model) :
  forallb (λ i, forallb (λ j, forallb (λ k,
      implb (bool_of m (R_ i j) && bool_of m (R_ j k)) (bool_of m (R_ i k)))
    (range ps)) (range ps)) (range ps) = true
  ↔ transitive ps m.
Proof.
  rewrite forallb_range. setoid_rewrite forallb_range.
  setoid_rewrite forallb_range. setoid_rewrite implb_and_true.
  unfold transitive, rel. split.
  - intros H i j k Hi Hj Hk. by apply H.
  - intros H i Hi j Hj k Hk. by apply H.
Qed.

Lemma monotone_flag (ps : Z) (m : model) :
  forallb (λ i, forallb (λ j, implb (is_subset i j) (bool_of m (R_ i j)))
    (range ps)) (range ps) = true
  ↔ monotone ps m.
Proof.
  rewrite forallb_range. setoid_rewrite forallb_range.
  unfold monotone, rel. split.
  - intros H i j Hi Hj Hs. specialize (H i Hi j Hj). by rewrite Hs in H.
  - intros H i Hi j Hj. destruct (is_subset i j) eqn:Hs; [|done].
    simpl. by apply H.
Qed.

(** X21.  On any matrix the FrameFinder verifiers make no lookup outside
    it, and they fail at the first of reflexivity, transitivity,
    monotonicity and non-triviality that the relation lacks, in that order;
    they all pass exactly when it has the four properties. *)
Theorem frame_display_model_decides (n : Z) (m : model) :
  0 ≤ n < 31 →
  ∃ r t mo se : bool,
    (r = true ↔ reflexive (2 ^ n) m) ∧
    (t = true ↔ transitive (2 ^ n) m) ∧
    (mo = true ↔ monotone (2 ^ n) m) ∧
    (se = true ↔ separates_full_from_empty (2 ^ n) m) ∧
    FrameFinder.display_model (FrameFinder.mkFrameVariables n) m
    = Some (if negb r
            then FrameFinder.assertion_failed "Reflexivity check failed"
            else if negb t
            then FrameFinder.assertion_failed "Transitivity check failed"
            else if negb mo
            then FrameFinder.assertion_failed "Monotonicity check failed"
            else if negb se
            then FrameFinder.assertion_failed "Non-triviality check failed"
            else FrameFinder.passed).
Proof.
  intros Hn. destruct (size_mkFrameVariables n Hn) as (Hsz & H1 & Hint).
  eexists _, _, _, (negb (rel m (2 ^ n - 1) 0)).
  split; [apply reflexive_flag|]. split; [apply transitive_flag|].
  split; [apply monotone_flag|].
  split; [apply negb_true_iff|].
  unfold FrameFinder.display_model, FrameFinder.verify_preorder,
    FrameFinder.verify_monotonicity.
  rewrite check_reflexive_extract, check_transitive_extract,
    check_monotone_extract, Hsz.
  rewrite verify_non_triviality_extract by (rewrite Hsz; done).
  rewrite Hsz. unfold rel.
  destruct (forallb (λ i, bool_of m (R_ i i)) _); simpl; [|done].
  destruct (forallb (λ i, forallb (λ j, forallb (λ k, implb _ _) _) _) _);
    simpl; [|done].
  destruct (forallb (λ i, forallb (λ j, implb _ _) _) _); simpl; [|done].
  by destruct (bool_of m _).
Qed.

Lemma frame_display_model_decides_total :
  ∃ r t mo se : bool,
    (r = true ↔ reflexive (2 ^ 1) Examples.total) ∧
    (t = true ↔ transitive (2 ^ 1) Examples.total) ∧
    (mo = true ↔ monotone (2 ^ 1) Examples.total) ∧
    (se = true ↔ separates_full_from_empty (2 ^ 1) Examples.total) ∧
    FrameFinder.display_model (FrameFinder.mkFrameVariables 1) Examples.total
    = Some (if negb r
            then FrameFinder.assertion_failed "Reflexivity check failed"
            else if negb t
            then FrameFinder.assertion_failed "Transitivity check failed"
            else if negb mo
            then FrameFinder.assertion_failed "Monotonicity check failed"
            else if negb se
            then FrameFinder.assertion_failed "Non-triviality check failed"
            else FrameFinder.passed).
Proof. apply (frame_display_model_decides 1 Examples.total). lia. Defined.

(** The relation that holds everywhere dies in the last assertion. *)
Example display_model_total_relation :
  FrameFinder.display_model (FrameFinder.mkFrameVariables 1) Examples.total
  = Some (FrameFinder.assertion_failed "Non-triviality check failed").
Proof. reflexivity. Qed.

(** X22.  With a solver whose SAT answers carry a model of what was
    asserted, a FrameFinder run for a universe size below 31 makes no lookup
    outside a vector and no assertion fires: it ends with a verified model,
    with UNSAT or with UNKNOWN. *)
Theorem frame_run_never_aborts (check : solver → check_result) (n : Z) :
  0 ≤ n < 31 →
  (∀ s m, FrameFinder.asserted (FrameFinder.mkFrameVariables n) = Some s →
          check s = sat m → satisfies m s) →
  FrameFinder.run check n = Some (FrameFinder.SAT_verified FrameFinder.passed)
  ∨ FrameFinder.run check n = Some FrameFinder.UNSAT_reported
  ∨ FrameFinder.run check n = Some FrameFinder.UNKNOWN_reported.
Proof.
  intros Hn Hsound.
  destruct (size_mkFrameVariables n Hn) as (Hsz & H1 & Hint).
  unfold FrameFinder.run.
  destruct (FrameFinder.asserted (FrameFinder.mkFrameVariables n))
    as [s|] eqn:Hs.
  2:{ unfold FrameFinder.asserted in Hs.
      rewrite encode_non_triviality_Some in Hs by (rewrite Hsz; done).
      done. }
  simpl. destruct (check s) as [|m|] eqn:E; [by auto| |by auto].
  left. rewrite (display_model_passes _ m s); [done| |done|by apply Hsound].
  apply wrap_range.
Qed.

Lemma frame_run_never_aborts_enumeration :
  FrameFinder.run (Enumeration.check 2) 1
  = Some (FrameFinder.SAT_verified FrameFinder.passed)
  ∨ FrameFinder.run (Enumeration.check 2) 1
    = Some FrameFinder.UNSAT_reported
  ∨ FrameFinder.run (Enumeration.check 2) 1
    = Some FrameFinder.UNKNOWN_reported.
Proof.
  apply (frame_run_never_aborts (Enumeration.check 2) 1).
  - lia.
  - intros s m _. apply enumeration_sound.
Defined.

Lemma partial_cell_extract (n : Z) (m : model) (i j : Z) :
  0 ≤ i < PartialPreorderFinder.powerset_size n →
  0 ≤ j < PartialPreorderFinder.powerset_size n →
  cell (PartialPreorderFinder.extract_matrix n m) i j
  = Some (bool_of m (R_ i j)).
Proof.
  apply (cell_fmap_range (λ i j, eval m (PartialPreorderFinder.R i j))).
Qed.

Lemma partial_verify_preorder_extract (n : Z) (m : model) :
  PartialPreorderFinder.display_model n m
  = Some (PartialPreorderFinder.Verdicts
      (forallb (λ i, bool_of m (R_ i i))
         (range (PartialPreorderFinder.powerset_size n)))
      (forallb (λ i, forallb (λ j, forallb (λ k,
           implb (bool_of m (R_ i j) && bool_of m (R_ j k))
                 (bool_of m (R_ i k)))
         (range (PartialPreorderFinder.powerset_size n)))
         (range (PartialPreorderFinder.powerset_size n)))
         (range (PartialPreorderFinder.powerset_size n)))).
Proof.
  unfold PartialPreorderFinder.display_model,
    PartialPreorderFinder.verify_preorder.
  assert (PartialPreorderFinder.check_reflexive n
            (PartialPreorderFinder.extract_matrix n m)
          = Some (forallb (λ i, bool_of m (R_ i i))
                    (range (PartialPreorderFinder.powerset_size n)))) as ->.
  { apply for_while_range. intros i Hi. by apply partial_cell_extract. }
  assert (PartialPreorderFinder.check_transitive n
            (PartialPreorderFinder.extract_matrix n m)
          = Some (forallb (λ i, forallb (λ j, forallb (λ k,
                    implb (bool_of m (R_ i j) && bool_of m (R_ j k))
                          (bool_of m (R_ i k)))
                  (range (PartialPreorderFinder.powerset_size n)))
                  (range (PartialPreorderFinder.powerset_size n)))
                  (range (PartialPreorderFinder.powerset_size n)))) as ->.
  { unfold PartialPreorderFinder.check_transitive.
    apply for_while_range. intros i Hi.
    apply for_while_range. intros j Hj.
    apply for_while_range. intros k Hk.
    unfold PartialPreorderFinder.transitive_step.
    rewrite (partial_cell_extract n m i j) by done. simpl.
    destruct (bool_of m (R_ i j)); [|done].
    rewrite (partial_cell_extract n m j k) by done. simpl.
    destruct (bool_of m (R_ j k)); [|done].
    by rewrite (partial_cell_extract n m i k). }
  done.
Qed.


(** X24.  With a solver whose SAT answers carry a model of what was
    asserted, a PartialPreorderFinder run ends with both verdicts PASS, with
    UNSAT or with UNKNOWN. *)
Theorem partial_run_verdicts (check : solver → check_result) (n : Z) :
  (∀ m, check (PartialPreorderFinder.asserted n) = sat m →
        satisfies m (PartialPreorderFinder.asserted n)) →
  PartialPreorderFinder.run check n
  = Some (PartialPreorderFinder.SAT_displayed
            (PartialPreorderFinder.Verdicts true true))
  ∨ PartialPreorderFinder.run check n
    = Some PartialPreorderFinder.UNSAT_reported
  ∨ PartialPreorderFinder.run check n
    = Some PartialPreorderFinder.UNKNOWN_reported.
Proof.
  intros Hsound. unfold PartialPreorderFinder.run.
  destruct (check (PartialPreorderFinder.asserted n)) as [|m|] eqn:E;
    [by auto| |by auto].
  left. rewrite partial_verify_preorder_extract. simpl.
  pose proof (Hsound m eq_refl) as Hm.
  apply partial_asserted_sem in Hm as (Hr & Ht & _).
  apply reflexive_flag in Hr. apply transitive_flag in Ht.
  by rewrite Hr, Ht.
Qed.

Lemma partial_run_verdicts_enumeration :
  PartialPreorderFinder.run (Enumeration.check 2) 1
  = Some (PartialPreorderFinder.SAT_displayed
            (PartialPreorderFinder.Verdicts true true))
  ∨ PartialPreorderFinder.run (Enumeration.check 2) 1
    = Some PartialPreorderFinder.UNSAT_reported
  ∨ PartialPreorderFinder.run (Enumeration.check 2) 1
    = Some PartialPreorderFinder.UNKNOWN_reported.
Proof.
  apply (partial_run_verdicts (Enumeration.check 2) 1).
  intros m. apply enumeration_sound.
Defined.




End PreorderMore.
